(** * A shallow embedding of the [prs] parser-combinator library

    The C++ library represents a parser as a [std::function] from a
    [StringState] and an input [std::string] to a [ParseResult<T>].  This
    development embeds the library function by function and studies the
    contracts of its combinators and primitive parsers.

    Conventions of the embedding.
    - [int] is a 32-bit signed integer, carried as a [Z]; an addition or
      subtraction whose mathematical result leaves the range is undefined
      behaviour ([Undefined]).  [size_t] is a 64-bit unsigned integer; the
      implicit conversion of an [int] to [size_t] reduces modulo [2^64] and
      [static_cast<int>] of a [size_t] wraps to 32 bits.
    - [std::string::operator[]] is defined for an index below the length and,
      since C++11, at the length itself, where it yields the null character;
      any other index is an out-of-bounds read ([Undefined]).
    - A call can also leave by an exception ([Throw]); [std::stoi],
      [std::string::substr] and [std::optional::value] are the throwing
      library calls the source uses.
    - [while (true)] loops take a bound on their iterations; a run that
      exhausts it yields [OutOfFuel], so that "the loop never ends" is
      "every bound is exhausted". *)

From Stdlib Require Import ZArith List String Ascii Bool Lia.
Import ListNotations.

Local Open Scope string_scope.
Local Open Scope Z_scope.

(** ** Machine integers *)

Definition INT_MAX : Z := 2147483647.
Definition INT_MIN : Z := -2147483648.
Definition SIZE_MODULUS : Z := 18446744073709551616.

Definition in_int (z : Z) : bool := (INT_MIN <=? z) && (z <=? INT_MAX).

(** Implicit conversion [int -> size_t]. *)
Definition to_size_t (z : Z) : Z := z mod SIZE_MODULUS.

(** [static_cast<int>] applied to a [size_t]. *)
Definition to_int (n : Z) : Z := (n + 2147483648) mod 4294967296 - 2147483648.

(** ** Outcomes of a call *)

Inductive exn : Type :=
| invalid_argument
| out_of_range
| bad_optional_access.

Inductive Outcome (A : Type) : Type :=
| Ret (a : A)
| Undefined
| Throw (e : exn)
| OutOfFuel.

Arguments Ret {A} a.
Arguments Undefined {A}.
Arguments Throw {A} e.
Arguments OutOfFuel {A}.

Definition bind {A B : Type} (m : Outcome A) (k : A -> Outcome B) : Outcome B :=
  match m with
  | Ret a => k a
  | Undefined => Undefined
  | Throw e => Throw e
  | OutOfFuel => OutOfFuel
  end.

Declare Scope outcome_scope.
Delimit Scope outcome_scope with outcome.
Notation "x <- m ;; k" := (bind m (fun x => k))
  (at level 61, m at next level, right associativity) : outcome_scope.
Local Open Scope outcome_scope.

(** Signed [int] arithmetic: overflow is undefined behaviour. *)
Definition int_add (a b : Z) : Outcome Z :=
  if in_int (a + b) then Ret (a + b) else Undefined.

Definition int_sub (a b : Z) : Outcome Z :=
  if in_int (a - b) then Ret (a - b) else Undefined.

(** ** [std::string] *)

Definition size (s : string) : Z := Z.of_nat (String.length s).

(** [s[i]] for a [size_t] index [i]. *)
Definition index (s : string) (i : Z) : Outcome ascii :=
  if i <? size s then
    match String.get (Z.to_nat i) s with
    | Some c => Ret c
    | None => Undefined
    end
  else if i =? size s then Ret zero
  else Undefined.

(** [s[position]] for an [int] position: the index is converted first. *)
Definition char_at (s : string) (position : Z) : Outcome ascii :=
  index s (to_size_t position).

(** [s.substr(pos, count)] with both arguments already of type [size_t]. *)
Definition substr (s : string) (pos count : Z) : Outcome string :=
  if size s <? pos then Throw out_of_range
  else Ret (String.substring (Z.to_nat pos) (Z.to_nat count) s).

(** Character tests.  Every range the source tests lies inside 0..127, where
    a signed and an unsigned [char] compare alike. *)
Definition code (c : ascii) : Z := Z.of_nat (nat_of_ascii c).

Definition between_chars (lo hi c : ascii) : bool :=
  (code lo <=? code c) && (code c <=? code hi).

Definition is_letter (c : ascii) : bool :=
  between_chars "a" "z" c || between_chars "A" "Z" c.

Definition is_digit (c : ascii) : bool := between_chars "0" "9" c.

Definition is_whitespace (c : ascii) : bool :=
  Ascii.eqb c " " || Ascii.eqb c "010" || Ascii.eqb c "009".

Definition is_alphanumeric (c : ascii) : bool :=
  between_chars "a" "z" c || between_chars "A" "Z" c || between_chars "0" "9" c.

(** ** Result and position model (Parser.h, [StringState], [ParseResult]) *)

Record StringState : Type := mkState { success : bool; position : Z }.

Record ParseResult (T : Type) : Type :=
  mkResult { state : StringState; result : option T }.

Arguments mkResult {T} state result.
Arguments state {T} _.
Arguments result {T} _.

(** The member functions of [ParseResult<T>]. *)
Module PR.
Definition GetStringState {T} (r : ParseResult T) : StringState := state r.
Definition Success {T} (r : ParseResult T) : bool := success (state r).
Definition GetPosition {T} (r : ParseResult T) : Z := position (state r).
(** [result.value()] throws when the optional is empty. *)
Definition GetResult {T} (r : ParseResult T) : Outcome T :=
  match result r with
  | Some v => Ret v
  | None => Throw bad_optional_access
  end.
End PR.

Inductive Void : Type := void.

Definition Success {T} (position : Z) (result : T) : ParseResult T :=
  mkResult (mkState true position) (Some result).

Definition Fail {T} (position : Z) : ParseResult T :=
  mkResult (mkState false position) None.

(** ** Parser engine (Parser.h, [Parser<T>]) *)

(** The wrapped [std::function]; the first argument bounds loop iterations. *)
Definition Parser (T : Type) : Type :=
  nat -> StringState -> string -> Outcome (ParseResult T).

(** [parser(string, position)]: [operator()] seeds a successful state. *)
Definition run {T} (parser : Parser T) (fuel : nat) (string : string)
    (position : Z) : Outcome (ParseResult T) :=
  parser fuel (mkState true position) string.

(** [parser(string)]: the start position defaults to 0. *)
Definition run0 {T} (parser : Parser T) (fuel : nat) (string : string)
    : Outcome (ParseResult T) :=
  parser fuel (mkState true 0) string.

(** ** Core combinators *)

(** [operator|]: map the carried value through a callable. *)
Definition Map {T R} (parser : Parser T) (function : T -> Outcome R)
    : Parser R :=
  fun fuel state string =>
    result <- parser fuel state string ;;
    if PR.Success result then
      v <- PR.GetResult result ;;
      y <- function v ;;
      Ret (Success (PR.GetPosition result) y)
    else Ret (Fail (position state)).

(** [operator~]: discard the carried value. *)
Definition Discard {T} (parser : Parser T) : Parser Void :=
  fun fuel state string =>
    result <- parser fuel state string ;;
    if PR.Success result then Ret (Success (PR.GetPosition result) void)
    else Ret (Fail (position state)).

(** [operator>>] on [Parser<T>] and [Parser<Void>]: keeps the first value. *)
Definition SeqFirst {T} (first : Parser T) (second : Parser Void) : Parser T :=
  fun fuel state string =>
    if negb (success state) then Ret (Fail (position state))
    else
      firstResult <- run first fuel string (position state) ;;
      if negb (PR.Success firstResult) then Ret (Fail (position state))
      else
        secondResult <- run second fuel string (PR.GetPosition firstResult) ;;
        if negb (PR.Success secondResult) then Ret (Fail (position state))
        else
          v <- PR.GetResult firstResult ;;
          Ret (Success (PR.GetPosition secondResult) v).

(** [operator>>] on [Parser<Void>] and [Parser<T>]: keeps the second value. *)
Definition SeqSecond {T} (first : Parser Void) (second : Parser T) : Parser T :=
  fun fuel state string =>
    if negb (success state) then Ret (Fail (position state))
    else
      firstResult <- run first fuel string (position state) ;;
      if negb (PR.Success firstResult) then Ret (Fail (position state))
      else
        secondResult <- run second fuel string (PR.GetPosition firstResult) ;;
        if negb (PR.Success secondResult) then Ret (Fail (position state))
        else
          v <- PR.GetResult secondResult ;;
          Ret (Success (PR.GetPosition secondResult) v).

(** [operator>>] on two [Parser<Void>]. *)
Definition SeqVoid (first second : Parser Void) : Parser Void :=
  fun fuel state string =>
    if negb (success state) then Ret (Fail (position state))
    else
      firstResult <- run first fuel string (position state) ;;
      if negb (PR.Success firstResult) then Ret (Fail (position state))
      else
        secondResult <- run second fuel string (PR.GetPosition firstResult) ;;
        if negb (PR.Success secondResult) then Ret (Fail (position state))
        else Ret (Success (PR.GetPosition secondResult) void).

(** [operator>>] on [Parser<T1>] and [Parser<T2>]: [Pair<T1, T2>]. *)
Definition SeqPair {T1 T2} (first : Parser T1) (second : Parser T2)
    : Parser (T1 * T2) :=
  fun fuel state string =>
    if negb (success state) then Ret (Fail (position state))
    else
      firstResult <- run first fuel string (position state) ;;
      if negb (PR.Success firstResult) then Ret (Fail (position state))
      else
        secondResult <- run second fuel string (PR.GetPosition firstResult) ;;
        if negb (PR.Success secondResult) then Ret (Fail (position state))
        else
          v1 <- PR.GetResult firstResult ;;
          v2 <- PR.GetResult secondResult ;;
          Ret (Success (PR.GetPosition secondResult) (v1, v2)).

(** [operator||]. *)
Definition Or {T} (first second : Parser T) : Parser T :=
  fun fuel state string =>
    firstResult <- run first fuel string (position state) ;;
    if PR.Success firstResult then Ret firstResult
    else
      secondResult <- run second fuel string (position state) ;;
      if PR.Success secondResult then Ret secondResult
      else Ret (Fail (position state)).

Definition Try {T} (parser : Parser T) (failResult : T) : Parser T :=
  fun fuel state string =>
    result <- run parser fuel string (position state) ;;
    if PR.Success result then Ret result
    else Ret (Success (position state) failResult).

(** ** Repetition and choice combinators *)

(** The [while (true)] loop of [Many]; [results] is the vector built so far. *)
Fixpoint Many_loop {T} (parser : Parser T) (fuel gas : nat) (string : string)
    (position : Z) (results : list T) : Outcome (ParseResult (list T)) :=
  match gas with
  | O => OutOfFuel
  | S gas' =>
      if to_size_t position =? size string then Ret (Success position results)
      else
        tempResult <- run parser fuel string position ;;
        if PR.Success tempResult then
          v <- PR.GetResult tempResult ;;
          Many_loop parser fuel gas' string (PR.GetPosition tempResult)
            (results ++ [v])
        else Ret (Success position results)
  end.

Definition Many {T} (parser : Parser T) : Parser (list T) :=
  fun fuel state string =>
    Many_loop parser fuel fuel string (position state) [].

(** [count] is a [uint32_t]; it is only compared with the vector's size. *)
Definition AtLeast {T} (count : nat) (parser : Parser T) : Parser (list T) :=
  fun fuel state string =>
    matches <- run (Many parser) fuel string (position state) ;;
    result <- PR.GetResult matches ;;
    if (count <=? List.length result)%nat then
      Ret (Success (PR.GetPosition matches) result)
    else Ret (Fail (position state)).

Definition Between {T} (min max : nat) (parser : Parser T) : Parser (list T) :=
  fun fuel state string =>
    matches <- run (Many parser) fuel string (position state) ;;
    result <- PR.GetResult matches ;;
    if (min <=? List.length result)%nat && (List.length result <=? max)%nat then
      Ret (Success (PR.GetPosition matches) result)
    else Ret (Fail (position state)).

(** The [for] loop of the list form of [AnyOf]; [None] when it falls through. *)
Fixpoint AnyOf_loop {T} (p : list (Parser T)) (fuel : nat) (string : string)
    (position : Z) : Outcome (option (ParseResult T)) :=
  match p with
  | [] => Ret None
  | p_i :: rest =>
      result <- run p_i fuel string position ;;
      if PR.Success result then Ret (Some result)
      else AnyOf_loop rest fuel string position
  end.

(** [AnyOf(parsers)]; the position is compared as a [size_t]. *)
Definition AnyOf {T} (parsers : list (Parser T)) : Parser T :=
  fun fuel state string =>
    if to_size_t (position state) <? size string then
      found <- AnyOf_loop parsers fuel string (position state) ;;
      match found with
      | Some result => Ret result
      | None => Ret (Fail (position state))
      end
    else Ret (Fail (position state)).

(** The [for] loop of the character-set form of [AnyOf]. *)
Fixpoint AnyOfChars_loop (characters : string) (string : string)
    (position : Z) : Outcome (option (ParseResult ascii)) :=
  match characters with
  | EmptyString => Ret None
  | String ch rest =>
      c <- char_at string position ;;
      if Ascii.eqb c ch then
        next <- int_add position 1 ;;
        Ret (Some (Success next ch))
      else AnyOfChars_loop rest string position
  end.

(** [AnyOf(characters)]; the position is compared as an [int]. *)
Definition AnyOfChars (characters : string) : Parser ascii :=
  fun fuel state string =>
    if position state <? to_int (size string) then
      found <- AnyOfChars_loop characters string (position state) ;;
      match found with
      | Some result => Ret result
      | None => Ret (Fail (position state))
      end
    else Ret (Fail (position state)).

Definition Not {T} (parser : Parser T) : Parser Void :=
  fun fuel state string =>
    result <- run parser fuel string (position state) ;;
    if PR.Success result then Ret (Fail (position state))
    else
      next <- int_add (position state) 1 ;;
      Ret (Success next void).

(** ** Primitive leaf parsers *)

Definition Char (character : ascii) : Parser ascii :=
  fun fuel state string =>
    c <- char_at string (position state) ;;
    if Ascii.eqb c character then
      next <- int_add (position state) 1 ;;
      Ret (Success next character)
    else Ret (Fail (position state)).

(** The [for] loop of [String] from index [i] on, over the rest of the
    pattern; [state.position + i] is [size_t] arithmetic.  The character is
    read before the index is compared with the length. *)
Fixpoint String_loop (rest : string) (i : Z) (string : string)
    (position : Z) : Outcome bool :=
  match rest with
  | EmptyString => Ret true
  | String pattern_i rest' =>
      let idx := (to_size_t position + i) mod SIZE_MODULUS in
      c <- index string idx ;;
      if negb (Ascii.eqb c pattern_i) || (size string <=? idx) then Ret false
      else String_loop rest' (i + 1) string position
  end.

Definition String_ (pattern : string) : Parser string :=
  fun fuel state string =>
    matched <- String_loop pattern 0 string (position state) ;;
    if matched then
      next <- int_add (position state) (to_int (size pattern)) ;;
      Ret (Success next pattern)
    else Ret (Fail (position state)).

Definition any : Parser ascii :=
  fun fuel state string =>
    if position state <? to_int (size string) then
      c <- char_at string (position state) ;;
      next <- int_add (position state) 1 ;;
      Ret (Success next c)
    else Ret (Fail (position state)).

(** [letter], [digit], [whitespace] and [alphanumeric] are one body with
    four different tests. *)
Definition char_class (test : ascii -> bool) : Parser ascii :=
  fun fuel state string =>
    c <- char_at string (position state) ;;
    if test c then
      next <- int_add (position state) 1 ;;
      Ret (Success next c)
    else Ret (Fail (position state)).

Definition letter : Parser ascii := char_class is_letter.
Definition digit : Parser ascii := char_class is_digit.
Definition whitespace : Parser ascii := char_class is_whitespace.
Definition alphanumeric : Parser ascii := char_class is_alphanumeric.

(** The scanning loop shared by [whitespaces], [letters], [digits],
    [alphanumerics] and [integer]:
    [while (true) { c = string[position]; if (test) ++position; else break; }] *)
Fixpoint scan_while (test : ascii -> bool) (gas : nat) (string : string)
    (position : Z) : Outcome Z :=
  match gas with
  | O => OutOfFuel
  | S gas' =>
      c <- char_at string position ;;
      if test c then
        position' <- int_add position 1 ;;
        scan_while test gas' string position'
      else Ret position
  end.

(** [whitespaces], [letters], [digits] and [alphanumerics] are one body with
    four different tests: the scan, then [string.substr(state.position,
    count)]. *)
Definition many_class (test : ascii -> bool) : Parser string :=
  fun fuel state string =>
    let start := position state in
    position <- scan_while test fuel string start ;;
    count <- int_sub position start ;;
    sub <- substr string (to_size_t start) (to_size_t count) ;;
    Ret (Success position sub).

Definition whitespaces : Parser string := many_class is_whitespace.
Definition letters : Parser string := many_class is_letter.
Definition digits : Parser string := many_class is_digit.
Definition alphanumerics : Parser string := many_class is_alphanumeric.

(** [whitespaces >> letters | [](const auto& pair) { return pair.second; }] *)
Definition word : Parser string :=
  Map (SeqPair whitespaces letters) (fun pair => Ret (snd pair)).

(** [std::stoi(str)] in base 10: leading [isspace] characters are skipped,
    one sign is accepted, then the longest run of digits is converted.
    No digit: [std::invalid_argument]; a value outside [int]:
    [std::out_of_range]. *)
Definition is_space (c : ascii) : bool :=
  Ascii.eqb c " " || ((9 <=? code c) && (code c <=? 13)).

Fixpoint skip_space (s : string) : string :=
  match s with
  | String c rest => if is_space c then skip_space rest else s
  | EmptyString => s
  end.

Fixpoint stoi_digits (s : string) (acc : option Z) : option Z :=
  match s with
  | String c rest =>
      if is_digit c then
        stoi_digits rest
          (Some (10 * match acc with Some a => a | None => 0 end
                 + (code c - code "0")))
      else acc
  | EmptyString => acc
  end.

Definition stoi_value (negative : bool) (s : string) : Outcome Z :=
  match stoi_digits s None with
  | None => Throw invalid_argument
  | Some n =>
      let v := if negative then - n else n in
      if in_int v then Ret v else Throw out_of_range
  end.

Definition stoi (str : string) : Outcome Z :=
  match skip_space str with
  | String "-" rest => stoi_value true rest
  | String "+" rest => stoi_value false rest
  | s => stoi_value false s
  end.

Definition integer : Parser Z :=
  fun fuel state string =>
    let start := position state in
    c <- char_at string start ;;
    position <- (if Ascii.eqb c "-" then int_add start 1 else Ret start) ;;
    c1 <- char_at string position ;;
    next <- int_add position 1 ;;
    c2 <- char_at string next ;;
    if Ascii.eqb c1 "0" && is_digit c2 then Ret (Fail start)
    else
      position <- scan_while is_digit fuel string position ;;
      count <- int_sub position start ;;
      sub <- substr string (to_size_t start) (to_size_t count) ;;
      result <- stoi sub ;;
      Ret (Success position result).

(** [AtLeastOne] calls [AtLeast(parser, 1)], while the only declaration is
    [AtLeast(uint32_t count, const Parser<T>& parser)].  A call site is
    resolved from the kinds of its arguments: a [Parser<T>] has no conversion
    to [uint32_t], and [T] cannot be deduced from an [int] against
    [const Parser<T>&], so only a count followed by a parser is viable. *)
Inductive argument (T : Type) : Type :=
| arg_count (count : nat)
| arg_parser (parser : Parser T).

Arguments arg_count {T} count.
Arguments arg_parser {T} parser.

Definition AtLeast_call {T} (a1 a2 : argument T) : option (Parser (list T)) :=
  match a1, a2 with
  | arg_count count, arg_parser parser => Some (AtLeast count parser)
  | _, _ => None
  end.

Definition AtLeastOne {T} (parser : Parser T) : option (Parser (list T)) :=
  match AtLeast_call (arg_parser parser) (arg_count 1) with
  | Some inner =>
      Some (fun fuel state string => run inner fuel string (position state))
  | None => None
  end.

(** ** Properties of parsers *)

Definition in_range (z : Z) : Prop := INT_MIN <= z <= INT_MAX.

(** A success never ends before the position the parser started at. *)
Definition monotone {T} (p : Parser T) (s : string) : Prop :=
  forall fuel st r,
    p fuel st s = Ret r -> PR.Success r = true ->
    position st <= PR.GetPosition r.

(** Every success moves the position forward. *)
Definition advancing {T} (p : Parser T) : Prop :=
  forall fuel st s r,
    p fuel st s = Ret r -> PR.Success r = true ->
    position st < PR.GetPosition r.

(** The run ends within the bound, whatever the bound above [N] is. *)
Definition halts_from {T} (N : nat) (p : Parser T) : Prop :=
  forall fuel st s,
    (N <= fuel)%nat -> in_range (position st) -> p fuel st s <> OutOfFuel.

(** A returned position is an [int] when the start position is one. *)
Definition keeps_range {T} (p : Parser T) : Prop :=
  forall fuel st s r,
    in_range (position st) -> p fuel st s = Ret r ->
    in_range (PR.GetPosition r).

(** Once a run ends within a bound, a larger bound changes nothing. *)
Definition stable {T} (p : Parser T) : Prop :=
  forall fuel fuel' st s,
    (fuel <= fuel')%nat -> p fuel st s <> OutOfFuel ->
    p fuel' st s = p fuel st s.

(** All three at once, with a bound that also covers a loop over all of
    [int]. *)
Definition tame {T} (p : Parser T) : Prop :=
  keeps_range p /\ stable p /\
  exists N : nat, 4294967296 <= Z.of_nat N /\ halts_from N p.

(** The parsers obtained from the public primitives, and from the parsers of
    a caller-supplied family [Base], by the public combinators.
    [AtLeastOne] is absent: it has no instance. *)
Section Built.
Variable Base : forall T : Type, Parser T -> Prop.

Inductive Built : forall T : Type, Parser T -> Prop :=
| B_base T p : Base T p -> Built T p
| B_Char c : Built ascii (Char c)
| B_String pattern : Built string (String_ pattern)
| B_any : Built ascii any
| B_letter : Built ascii letter
| B_digit : Built ascii digit
| B_whitespace : Built ascii whitespace
| B_alphanumeric : Built ascii alphanumeric
| B_whitespaces : Built string whitespaces
| B_letters : Built string letters
| B_digits : Built string digits
| B_alphanumerics : Built string alphanumerics
| B_word : Built string word
| B_integer : Built Z integer
| B_AnyOfChars characters : Built ascii (AnyOfChars characters)
| B_Map T R p f : Built T p -> Built R (Map p f)
| B_Discard T p : Built T p -> Built Void (Discard p)
| B_SeqFirst T p q : Built T p -> Built Void q -> Built T (SeqFirst p q)
| B_SeqSecond T p q : Built Void p -> Built T q -> Built T (SeqSecond p q)
| B_SeqVoid p q : Built Void p -> Built Void q -> Built Void (SeqVoid p q)
| B_SeqPair T1 T2 p q :
    Built T1 p -> Built T2 q -> Built (T1 * T2)%type (SeqPair p q)
| B_Or T p q : Built T p -> Built T q -> Built T (Or p q)
| B_Try T p d : Built T p -> Built T (Try p d)
| B_Many T p : Built T p -> Built (list T) (Many p)
| B_AtLeast T n p : Built T p -> Built (list T) (AtLeast n p)
| B_Between T lo hi p : Built T p -> Built (list T) (Between lo hi p)
| B_AnyOf T ps : (forall p, In p ps -> Built T p) -> Built T (AnyOf ps)
| B_Not T p : Built T p -> Built Void (Not p).
End Built.

(** The same parsers, with a pure transform under [Map] and with every
    operand of [Many], [AtLeast] and [Between] advancing on success. *)
Inductive Productive : forall T : Type, Parser T -> Prop :=
| P_Char c : Productive ascii (Char c)
| P_String pattern : Productive string (String_ pattern)
| P_any : Productive ascii any
| P_letter : Productive ascii letter
| P_digit : Productive ascii digit
| P_whitespace : Productive ascii whitespace
| P_alphanumeric : Productive ascii alphanumeric
| P_whitespaces : Productive string whitespaces
| P_letters : Productive string letters
| P_digits : Productive string digits
| P_alphanumerics : Productive string alphanumerics
| P_word : Productive string word
| P_integer : Productive Z integer
| P_AnyOfChars characters : Productive ascii (AnyOfChars characters)
| P_Map T R p (f : T -> R) :
    Productive T p -> Productive R (Map p (fun v => Ret (f v)))
| P_Discard T p : Productive T p -> Productive Void (Discard p)
| P_SeqFirst T p q :
    Productive T p -> Productive Void q -> Productive T (SeqFirst p q)
| P_SeqSecond T p q :
    Productive Void p -> Productive T q -> Productive T (SeqSecond p q)
| P_SeqVoid p q :
    Productive Void p -> Productive Void q -> Productive Void (SeqVoid p q)
| P_SeqPair T1 T2 p q :
    Productive T1 p -> Productive T2 q ->
    Productive (T1 * T2)%type (SeqPair p q)
| P_Or T p q : Productive T p -> Productive T q -> Productive T (Or p q)
| P_Try T p d : Productive T p -> Productive T (Try p d)
| P_Many T p : Productive T p -> advancing p -> Productive (list T) (Many p)
| P_AtLeast T n p :
    Productive T p -> advancing p -> Productive (list T) (AtLeast n p)
| P_Between T lo hi p :
    Productive T p -> advancing p -> Productive (list T) (Between lo hi p)
| P_AnyOf T ps : (forall p, In p ps -> Productive T p) -> Productive T (AnyOf ps)
| P_Not T p : Productive T p -> Productive Void (Not p).

(** What [Many(P)] collects, told without the loop: [collects P fuel s p vs q]
    when [P] matches consecutively from [p], yielding the values [vs], and
    stops at [q] because the input is exhausted or [P] fails there. *)
Inductive collects {T} (P : Parser T) (fuel : nat) (s : string)
    : Z -> list T -> Z -> Prop :=
| collects_end p :
    to_size_t p = size s -> collects P fuel s p [] p
| collects_fail p r :
    to_size_t p <> size s ->
    run P fuel s p = Ret r -> PR.Success r = false ->
    collects P fuel s p [] p
| collects_step p r v vs q :
    to_size_t p <> size s ->
    run P fuel s p = Ret r -> PR.Success r = true -> result r = Some v ->
    collects P fuel s (PR.GetPosition r) vs q ->
    collects P fuel s p (v :: vs) q.

(** The suffix of a string and its longest prefix passing a test. *)
Fixpoint string_drop (n : nat) (s : string) : string :=
  match n, s with
  | O, _ => s
  | S n', String _ rest => string_drop n' rest
  | S _, EmptyString => EmptyString
  end.

Fixpoint take_while (test : ascii -> bool) (s : string) : string :=
  match s with
  | String c rest =>
      if test c then String c (take_while test rest) else EmptyString
  | EmptyString => EmptyString
  end.

(** A caller-written parser that reports its failure one past its start. *)
Definition fail_ahead : Parser ascii :=
  fun fuel state string => Ret (Fail (position state + 1)).

(** ** Reference notions for the primitives *)

(** What [string[i]] yields for an index up to the length: the character
    there, or the terminating null character at the length itself. *)
Definition peek (s : string) (i : nat) : ascii :=
  match String.get i s with
  | Some c => c
  | None => zero
  end.

(** Whether a string starts with a pattern. *)
Fixpoint starts_with (pattern s : string) : bool :=
  match pattern with
  | EmptyString => true
  | String a pattern' =>
      match s with
      | EmptyString => false
      | String b s' => Ascii.eqb b a && starts_with pattern' s'
      end
  end.

(** Membership of a character in a character set. *)
Fixpoint mem_char (c : ascii) (characters : string) : bool :=
  match characters with
  | EmptyString => false
  | String ch rest => Ascii.eqb c ch || mem_char c rest
  end.


(** The parser that fails at its start position without reading. *)
Definition never {T} : Parser T :=
  fun fuel state string => Ret (Fail (position state)).



(** A result as the library builds it with [Success] and [Fail]: it carries
    a value exactly when it is a success. *)
Definition carries_value {T} (r : ParseResult T) : Prop :=
  PR.Success r = true <-> result r <> None.

(** A parser whose every result carries a value exactly on success and whose
    every failure is reported at the start position. *)
Definition well_behaved {T} (p : Parser T) : Prop :=
  forall fuel st s r,
    p fuel st s = Ret r ->
    carries_value r /\ (PR.Success r = false -> PR.GetPosition r = position st).

(** ** Long inputs and parsers that stay inside the input *)

Fixpoint replicate (n : nat) (c : ascii) : string :=
  match n with
  | O => EmptyString
  | S n' => String c (replicate n' c)
  end.

(** A string of [2^31] characters, one more than [INT_MAX]. *)
Definition long_pattern : string := replicate (Z.to_nat 2147483648) "a".

(** Above some bound on loop iterations, the parser returns a [ParseResult]
    from every start inside the input, and a success carries a value and
    ends inside the input, not before the start. *)
Definition returns_inside {T} (p : Parser T) (s : string) : Prop :=
  exists N : nat,
    forall fuel st,
      (N <= fuel)%nat -> 0 <= position st <= size s ->
      exists r,
        p fuel st s = Ret r /\
        (PR.Success r = true ->
         (exists v, result r = Some v) /\
         position st <= PR.GetPosition r <= size s).

(** The parsers that perform their reads inside the input: the primitives
    that stop at the terminating null character, caller-supplied parsers
    of a family [Base], and the combinators over them, with a pure
    transform under [Map] and advancing operands under [Many], [AtLeast]
    and [Between].  [Not] and [Char] of the null character step past the
    end of the input and [integer] reads there, so they are left to
    [Base]. *)
Section Safe.
Variable Base : forall T : Type, Parser T -> Prop.

Inductive Safe : forall T : Type, Parser T -> Prop :=
| S_base T p : Base T p -> Safe T p
| S_Char c : c <> zero -> Safe ascii (Char c)
| S_String pattern : Safe string (String_ pattern)
| S_any : Safe ascii any
| S_letter : Safe ascii letter
| S_digit : Safe ascii digit
| S_whitespace : Safe ascii whitespace
| S_alphanumeric : Safe ascii alphanumeric
| S_whitespaces : Safe string whitespaces
| S_letters : Safe string letters
| S_digits : Safe string digits
| S_alphanumerics : Safe string alphanumerics
| S_word : Safe string word
| S_AnyOfChars characters : Safe ascii (AnyOfChars characters)
| S_Map T R p (f : T -> R) :
    Safe T p -> Safe R (Map p (fun v => Ret (f v)))
| S_Discard T p : Safe T p -> Safe Void (Discard p)
| S_SeqFirst T p q : Safe T p -> Safe Void q -> Safe T (SeqFirst p q)
| S_SeqSecond T p q : Safe Void p -> Safe T q -> Safe T (SeqSecond p q)
| S_SeqVoid p q : Safe Void p -> Safe Void q -> Safe Void (SeqVoid p q)
| S_SeqPair T1 T2 p q :
    Safe T1 p -> Safe T2 q -> Safe (T1 * T2)%type (SeqPair p q)
| S_Or T p q : Safe T p -> Safe T q -> Safe T (Or p q)
| S_Try T p d : Safe T p -> Safe T (Try p d)
| S_Many T p : Safe T p -> advancing p -> Safe (list T) (Many p)
| S_AtLeast T n p : Safe T p -> advancing p -> Safe (list T) (AtLeast n p)
| S_Between T lo hi p :
    Safe T p -> advancing p -> Safe (list T) (Between lo hi p)
| S_AnyOf T ps : (forall p, In p ps -> Safe T p) -> Safe T (AnyOf ps).
End Safe.

(** * Theorems *)

(** ** Outcomes and machine integers *)

Lemma bind_Ret_inv {A B} (m : Outcome A) (k : A -> Outcome B) (b : B) :
  bind m k = Ret b -> exists a, m = Ret a /\ k a = Ret b.
Proof. destruct m; simpl; intros H; try discriminate. eauto. Qed.

Lemma bind_OutOfFuel_inv {A B} (m : Outcome A) (k : A -> Outcome B) :
  bind m k = OutOfFuel ->
  m = OutOfFuel \/ exists a, m = Ret a /\ k a = OutOfFuel.
Proof. destruct m; simpl; intros H; try discriminate; eauto. Qed.

Lemma int_add_Ret a b r : int_add a b = Ret r -> r = a + b /\ in_range r.
Proof.
  unfold int_add, in_int, in_range.
  destruct (INT_MIN <=? a + b) eqn:E1; destruct (a + b <=? INT_MAX) eqn:E2;
    simpl; intros H; inversion H; subst. lia.
Qed.

Lemma int_add_not_OutOfFuel a b : int_add a b <> OutOfFuel.
Proof. unfold int_add. destruct (in_int (a + b)); discriminate. Qed.

Lemma int_sub_not_OutOfFuel a b : int_sub a b <> OutOfFuel.
Proof. unfold int_sub. destruct (in_int (a - b)); discriminate. Qed.

Lemma int_add_in_range a b : in_range (a + b) -> int_add a b = Ret (a + b).
Proof.
  unfold int_add, in_int, in_range, INT_MIN, INT_MAX. intros [H1 H2].
  destruct (Z.leb_spec (-2147483648) (a + b)); try lia.
  destruct (Z.leb_spec (a + b) 2147483647); try lia. reflexivity.
Qed.

Lemma int_sub_in_range a b : in_range (a - b) -> int_sub a b = Ret (a - b).
Proof.
  unfold int_sub, in_int, in_range, INT_MIN, INT_MAX. intros [H1 H2].
  destruct (Z.leb_spec (-2147483648) (a - b)); try lia.
  destruct (Z.leb_spec (a - b) 2147483647); try lia. reflexivity.
Qed.

Lemma index_not_OutOfFuel s i : index s i <> OutOfFuel.
Proof.
  unfold index. destruct (i <? size s).
  - destruct (get (Z.to_nat i) s); discriminate.
  - destruct (i =? size s); discriminate.
Qed.

Lemma char_at_not_OutOfFuel s p : char_at s p <> OutOfFuel.
Proof. apply index_not_OutOfFuel. Qed.

Lemma Success_position {T} (q : Z) (v : T) : PR.GetPosition (Success q v) = q.
Proof. reflexivity. Qed.

(** ** The scenarios of the specification *)

Example scenario_Char : run (Char "a") 0 "ab" 0 = Ret (Success 1 "a"%char).
Proof. reflexivity. Qed.

Example scenario_sequence_mapped :
  run0 (Map (SeqPair (Char "a") (Char "b"))
          (fun results => Ret (String (fst results) (String (snd results) ""))))
       0 "ab"
  = Ret (Success 2 "ab").
Proof. reflexivity. Qed.

Example scenario_digits : run digits 4 "123abc" 0 = Ret (Success 3 "123").
Proof. reflexivity. Qed.

Example scenario_integer_zero : run0 integer 2 "0" = Ret (Success 1 0).
Proof. reflexivity. Qed.

Example scenario_integer_leading_zero : run0 integer 2 "01" = Ret (Fail 0).
Proof. reflexivity. Qed.

Example scenario_AnyOf_member :
  run (AnyOfChars "xyz") 0 "yab" 0 = Ret (Success 1 "y"%char).
Proof. reflexivity. Qed.

Example scenario_AnyOf_other : run (AnyOfChars "xyz") 0 "ab" 0 = Ret (Fail 0).
Proof. reflexivity. Qed.

Example scenario_Not_mismatch :
  run (Not (Char "a")) 0 "ba" 0 = Ret (Success 1 void).
Proof. reflexivity. Qed.

Example scenario_Not_match : run (Not (Char "a")) 0 "ab" 0 = Ret (Fail 0).
Proof. reflexivity. Qed.

(** ** Alternation *)

(** C7. Alternation contract: [(A || B)(s, p)] is [A(s, p)] when that
    succeeds; otherwise it is [B(s, p)] when that succeeds; and when both
    fail the result is a failure at exactly [p], whatever positions the two
    failures carry. *)
Theorem Or_contract {T} (A B : Parser T) (fuel : nat) (s : string) (p : Z) :
  (forall ra, run A fuel s p = Ret ra -> PR.Success ra = true ->
     run (Or A B) fuel s p = Ret ra) /\
  (forall ra rb, run A fuel s p = Ret ra -> PR.Success ra = false ->
     run B fuel s p = Ret rb -> PR.Success rb = true ->
     run (Or A B) fuel s p = Ret rb) /\
  (forall ra rb, run A fuel s p = Ret ra -> PR.Success ra = false ->
     run B fuel s p = Ret rb -> PR.Success rb = false ->
     run (Or A B) fuel s p = Ret (Fail p)).
Proof.
  repeat split; intros.
  - unfold run at 1, Or. simpl. rewrite H. simpl. rewrite H0. reflexivity.
  - unfold run at 1, Or. simpl. rewrite H. simpl. rewrite H0, H1. simpl.
    rewrite H2. reflexivity.
  - unfold run at 1, Or. simpl. rewrite H. simpl. rewrite H0, H1. simpl.
    rewrite H2. reflexivity.
Qed.

Lemma Or_contract_witness :
  run (Or (Char "a") (Char "b")) 0 "ab" 0 = Ret (Success 1 "a"%char) /\
  run (Or (Char "a") (Char "b")) 0 "ba" 0 = Ret (Success 1 "b"%char) /\
  run (Or (SeqPair (Char "a") (Char "b")) (SeqPair (Char "a") (Char "c")))
      0 "aad" 0 = Ret (Fail 0).
Proof.
  split; [|split].
  - apply (proj1 (Or_contract (Char "a") (Char "b") 0 "ab" 0));
      reflexivity.
  - apply (proj1 (proj2 (Or_contract (Char "a") (Char "b") 0 "ba" 0))
             (Fail 0)); reflexivity.
  - apply (proj2 (proj2 (Or_contract (SeqPair (Char "a") (Char "b"))
                           (SeqPair (Char "a") (Char "c")) 0 "aad" 0))
             (Fail 0) (Fail 0)); reflexivity.
Defined.

(** ** Map *)

(** C6, as stated, fails: a parser that reports its failure away from its
    start position is mapped to a failure at the start position. *)
Lemma Map_failure_position_counterexample :
  run fail_ahead 0 "ab" 0 = Ret (Fail 1) /\
  run (Map fail_ahead (fun c => Ret c)) 0 "ab" 0 = Ret (Fail 0).
Proof. split; reflexivity. Qed.

(** C6, amended. When [P(s, p)] fails, whatever position its failure carries,
    [(P | f)(s, p)] fails at the start position [p], and [f] is not invoked:
    the result is the same for every [f], even one whose every call throws.
    When [P(s, p)] succeeds with value [v] at [r], the mapped parser succeeds
    with [f(v)] at [r]. *)
Theorem Map_contract {T R} (P : Parser T) (fuel : nat) (s : string) (p : Z) :
  (forall r (f : T -> Outcome R),
     run P fuel s p = Ret r -> PR.Success r = false ->
     run (Map P f) fuel s p = Ret (Fail p)) /\
  (forall q v (f : T -> R),
     run P fuel s p = Ret (Success q v) ->
     run (Map P (fun x => Ret (f x))) fuel s p = Ret (Success q (f v))).
Proof.
  split; intros.
  - unfold run in *. unfold Map. rewrite H. simpl. rewrite H0. reflexivity.
  - unfold run in *. unfold Map. rewrite H. reflexivity.
Qed.

Lemma Map_contract_witness :
  run (Map (Char "a") (fun _ : ascii => @Throw nat invalid_argument))
      0 "b" 0 = Ret (Fail 0) /\
  run (Map (Char "a") (fun c => Ret (nat_of_ascii c))) 0 "ab" 0
    = Ret (Success 1 97%nat).
Proof.
  split.
  - apply (proj1 (Map_contract (Char "a") 0 "b" 0) (Fail 0)); reflexivity.
  - apply (proj2 (Map_contract (Char "a") 0 "ab" 0) 1 "a"%char nat_of_ascii).
    reflexivity.
Defined.

(** ** Not *)



(** ** Monotonic consumption *)

Ltac inv_ret :=
  repeat match goal with
  | H : bind _ _ = Ret _ |- _ =>
      let a := fresh "a" in let E := fresh "E" in
      apply bind_Ret_inv in H; destruct H as (a & E & H)
  | H : Ret _ = Ret _ |- _ => inversion H; subst; clear H
  | H : Undefined = Ret _ |- _ => discriminate H
  | H : Throw _ = Ret _ |- _ => discriminate H
  | H : OutOfFuel = Ret _ |- _ => discriminate H
  | H : int_add _ _ = Ret _ |- _ => apply int_add_Ret in H; destruct H
  | H : (if ?c then _ else _) = Ret _ |- _ =>
      let E := fresh "E" in destruct c eqn:E
  end.

Ltac pr_simpl :=
  unfold PR.GetPosition, PR.Success, PR.GetResult, Success, Fail in *;
  cbn [state position success result] in *.

Lemma size_String c s : size (String c s) = 1 + size s.
Proof. unfold size. simpl String.length. lia. Qed.

Lemma size_nonneg s : 0 <= size s.
Proof. unfold size. lia. Qed.

Lemma to_size_t_bound p : 0 <= to_size_t p < SIZE_MODULUS.
Proof. unfold to_size_t. apply Z.mod_pos_bound. reflexivity. Qed.

Lemma to_size_t_small p : 0 <= p < SIZE_MODULUS -> to_size_t p = p.
Proof. unfold to_size_t. apply Z.mod_small. Qed.

Lemma to_int_small n : 0 <= n <= INT_MAX -> to_int n = n.
Proof.
  unfold to_int, INT_MAX. intros H. rewrite Z.mod_small by lia. lia.
Qed.

Lemma monotone_char_class test s : monotone (char_class test) s.
Proof.
  intros fuel st r H Hs. unfold char_class in H. inv_ret; pr_simpl.
  - lia.
  - discriminate.
Qed.

Lemma monotone_Char c s : monotone (Char c) s.
Proof.
  intros fuel st r H Hs. unfold Char in H. inv_ret; pr_simpl.
  - lia.
  - discriminate.
Qed.

Lemma monotone_any s : monotone any s.
Proof.
  intros fuel st r H Hs. unfold any in H. inv_ret; pr_simpl.
  - lia.
  - discriminate.
Qed.

Lemma AnyOfChars_loop_Some characters s p : forall r,
  AnyOfChars_loop characters s p = Ret (Some r) ->
  PR.Success r = true /\ PR.GetPosition r = p + 1.
Proof.
  induction characters as [|ch rest IH]; simpl; intros r H.
  - discriminate.
  - inv_ret.
    + split; [reflexivity|]. rewrite Success_position. assumption.
    + auto.
Qed.

Lemma monotone_AnyOfChars characters s : monotone (AnyOfChars characters) s.
Proof.
  intros fuel st r H Hs. unfold AnyOfChars in H. inv_ret.
  - destruct a as [r'|]; inv_ret.
    + apply AnyOfChars_loop_Some in E0. lia.
    + discriminate.
  - discriminate.
Qed.

Lemma String_loop_matched rest : forall i s p,
  size s <= INT_MAX -> 0 <= i -> to_size_t p + i < SIZE_MODULUS ->
  String_loop rest i s p = Ret true ->
  rest = "" \/ to_size_t p + i + size rest <= size s.
Proof.
  induction rest as [|c rest IH]; intros i s p Hlen Hi Hq H.
  - left. reflexivity.
  - right. simpl in H.
    pose proof (to_size_t_bound p) as Hp.
    unfold SIZE_MODULUS in *.
    rewrite (Z.mod_small (to_size_t p + i)) in H by lia.
    inv_ret.
    apply orb_false_iff in E0. destruct E0 as [_ E0].
    apply Z.leb_gt in E0.
    rewrite size_String.
    assert (Hnext : to_size_t p + (i + 1) < 18446744073709551616)
      by (unfold INT_MAX in *; lia).
    destruct (IH (i + 1) s p Hlen ltac:(lia) Hnext H) as [-> | Hle].
    + change (size "") with 0. lia.
    + lia.
Qed.

Lemma monotone_String pattern s :
  size s <= INT_MAX -> monotone (String_ pattern) s.
Proof.
  intros Hlen fuel st r H Hs. unfold String_ in H. inv_ret.
  - rewrite Success_position.
    apply String_loop_matched in E; auto.
    + destruct E as [-> | Hle].
      * change (to_int (size "")) with 0 in H. lia.
      * pose proof (to_size_t_bound (position st)).
        pose proof (size_nonneg pattern).
        rewrite to_int_small in H by lia. lia.
    + lia.
    + pose proof (to_size_t_bound (position st)). lia.
  - discriminate.
Qed.

Lemma scan_while_ge test gas : forall s p q,
  scan_while test gas s p = Ret q -> p <= q.
Proof.
  induction gas as [|gas IH]; simpl; intros s p q H.
  - discriminate.
  - inv_ret.
    + apply IH in H. lia.
    + lia.
Qed.

Lemma monotone_many_class test s : monotone (many_class test) s.
Proof.
  intros fuel st r H Hs. unfold many_class in H. inv_ret.
  rewrite Success_position. eapply scan_while_ge; eauto.
Qed.

Lemma monotone_integer s : monotone integer s.
Proof.
  intros fuel st r H Hs. unfold integer in H. cbv zeta in H. inv_ret;
    try discriminate; rewrite Success_position;
    match goal with
    | H : scan_while _ _ _ _ = Ret _ |- _ => apply scan_while_ge in H
    end; lia.
Qed.

Ltac mono_step :=
  match goal with
  | Hm : monotone ?p ?s, H : ?p ?fuel ?st ?s = Ret ?r |- _ =>
      let L := fresh "L" in
      pose proof (Hm fuel st r H) as L; revert H
  | Hm : monotone ?p ?s, H : run ?p ?fuel ?s ?q = Ret ?r |- _ =>
      let L := fresh "L" in
      pose proof (Hm fuel (mkState true q) r H) as L; revert H
  end.

Ltac mono_solve :=
  repeat mono_step; intros; pr_simpl;
  repeat match goal with
  | H : negb _ = false |- _ => apply negb_false_iff in H
  | H : ?a = true -> _ |- _ => specialize (H ltac:(assumption))
  end; try discriminate; try lia.

Lemma monotone_Map {T R} (p : Parser T) (f : T -> Outcome R) s :
  monotone p s -> monotone (Map p f) s.
Proof.
  intros Hp fuel st r H Hs. unfold Map in H. inv_ret; mono_solve.
Qed.

Lemma monotone_Discard {T} (p : Parser T) s :
  monotone p s -> monotone (Discard p) s.
Proof.
  intros Hp fuel st r H Hs. unfold Discard in H. inv_ret; mono_solve.
Qed.

Lemma monotone_SeqFirst {T} (p : Parser T) q s :
  monotone p s -> monotone q s -> monotone (SeqFirst p q) s.
Proof.
  intros Hp Hq fuel st r H Hs. unfold SeqFirst in H. inv_ret; mono_solve.
Qed.

Lemma monotone_SeqSecond {T} p (q : Parser T) s :
  monotone p s -> monotone q s -> monotone (SeqSecond p q) s.
Proof.
  intros Hp Hq fuel st r H Hs. unfold SeqSecond in H. inv_ret; mono_solve.
Qed.

Lemma monotone_SeqVoid p q s :
  monotone p s -> monotone q s -> monotone (SeqVoid p q) s.
Proof.
  intros Hp Hq fuel st r H Hs. unfold SeqVoid in H. inv_ret; mono_solve.
Qed.

Lemma monotone_SeqPair {T1 T2} (p : Parser T1) (q : Parser T2) s :
  monotone p s -> monotone q s -> monotone (SeqPair p q) s.
Proof.
  intros Hp Hq fuel st r H Hs. unfold SeqPair in H. inv_ret; mono_solve.
Qed.

Lemma monotone_Or {T} (p q : Parser T) s :
  monotone p s -> monotone q s -> monotone (Or p q) s.
Proof.
  intros Hp Hq fuel st r H Hs. unfold Or in H. inv_ret; mono_solve.
Qed.

Lemma monotone_Try {T} (p : Parser T) d s :
  monotone p s -> monotone (Try p d) s.
Proof.
  intros Hp fuel st r H Hs. unfold Try in H. inv_ret; mono_solve.
Qed.

Lemma monotone_Not {T} (p : Parser T) s : monotone (Not p) s.
Proof.
  intros fuel st r H Hs. unfold Not in H. inv_ret; mono_solve.
Qed.

Lemma Many_loop_ge {T} (p : Parser T) s fuel gas :
  monotone p s ->
  forall q results r,
    Many_loop p fuel gas s q results = Ret r -> q <= PR.GetPosition r.
Proof.
  intros Hp. induction gas as [|gas IH]; simpl; intros q results r H.
  - discriminate.
  - inv_ret.
    + rewrite Success_position. lia.
    + apply IH in H. mono_solve.
    + rewrite Success_position. lia.
Qed.

Lemma Many_ge {T} (p : Parser T) s fuel q r :
  monotone p s -> run (Many p) fuel s q = Ret r -> q <= PR.GetPosition r.
Proof.
  intros Hp H. unfold run, Many in H. eapply Many_loop_ge; eauto.
Qed.

Lemma monotone_Many {T} (p : Parser T) s :
  monotone p s -> monotone (Many p) s.
Proof.
  intros Hp fuel st r H _. unfold Many in H.
  eapply Many_loop_ge; eauto.
Qed.

Lemma monotone_AtLeast {T} n (p : Parser T) s :
  monotone p s -> monotone (AtLeast n p) s.
Proof.
  intros Hp fuel st r H Hs. unfold AtLeast in H. inv_ret.
  - apply Many_ge in E; auto.
  - discriminate.
Qed.

Lemma monotone_Between {T} lo hi (p : Parser T) s :
  monotone p s -> monotone (Between lo hi p) s.
Proof.
  intros Hp fuel st r H Hs. unfold Between in H. inv_ret.
  - apply Many_ge in E; auto.
  - discriminate.
Qed.

Lemma AnyOf_loop_ge {T} (ps : list (Parser T)) s fuel q :
  (forall p, In p ps -> monotone p s) ->
  forall r, AnyOf_loop ps fuel s q = Ret (Some r) ->
    PR.Success r = true -> q <= PR.GetPosition r.
Proof.
  induction ps as [|p ps IH]; simpl; intros Hps r H Hs.
  - discriminate.
  - inv_ret.
    + assert (Hp : monotone p s) by auto. mono_solve.
    + apply IH; auto.
Qed.

Lemma monotone_AnyOf {T} (ps : list (Parser T)) s :
  (forall p, In p ps -> monotone p s) -> monotone (AnyOf ps) s.
Proof.
  intros Hps fuel st r H Hs. unfold AnyOf in H. inv_ret.
  - destruct a as [r'|]; inv_ret.
    + eapply AnyOf_loop_ge; eauto.
    + discriminate.
  - discriminate.
Qed.

Lemma monotone_word s : monotone word s.
Proof.
  apply monotone_Map, monotone_SeqPair; apply monotone_many_class.
Qed.

(** C9, amended. Monotonic consumption: on an input of at most [INT_MAX]
    characters, a parser built from the library's primitives and
    combinators, over caller-supplied parsers that satisfy the invariant,
    never returns a success at a position before the one it started at;
    every combinator preserves the invariant.  A run in which a position
    computation overflows [int] returns nothing the invariant speaks of:
    the overflow is undefined behaviour. *)
Theorem monotonic_consumption (Base : forall T : Type, Parser T -> Prop)
    (s : string) :
  size s <= INT_MAX ->
  (forall T p, Base T p -> monotone p s) ->
  forall T (p : Parser T) (fuel : nat) (start : Z) (r : ParseResult T),
    Built Base T p ->
    run p fuel s start = Ret r -> PR.Success r = true ->
    start <= PR.GetPosition r.
Proof.
  intros Hlen HBase T p fuel start r HB.
  assert (Hm : monotone p s).
  { clear fuel start r. induction HB;
      unfold letter, digit, whitespace, alphanumeric, whitespaces, letters,
        digits, alphanumerics;
      auto using monotone_Char, monotone_String, monotone_any,
        monotone_char_class, monotone_many_class, monotone_word,
        monotone_integer, monotone_AnyOfChars, monotone_Map,
        monotone_Discard, monotone_SeqFirst, monotone_SeqSecond,
        monotone_SeqVoid, monotone_SeqPair, monotone_Or, monotone_Try,
        monotone_Many, monotone_AtLeast, monotone_Between, monotone_AnyOf,
        monotone_Not. }
  intros H Hs. exact (Hm fuel (mkState true start) r H Hs).
Qed.

Lemma monotonic_consumption_witness :
  size "ab1" <= INT_MAX /\
  run (Many letter) 5 "ab1" 0 = Ret (Success 2 ["a"%char; "b"%char]) /\
  0 <= PR.GetPosition (Success 2 ["a"%char; "b"%char]).
Proof.
  assert (Hlen : size "ab1" <= INT_MAX) by (vm_compute; discriminate).
  split; [exact Hlen | split; [reflexivity |]].
  exact (monotonic_consumption (fun _ _ => False) "ab1" Hlen
           (fun T p (F : False) => match F with end)
           (list ascii) (Many letter) 5%nat 0
           (Success 2 ["a"%char; "b"%char])
           (B_Many _ _ _ (B_letter _)) eq_refl eq_refl).
Defined.

(** ** Between *)

Lemma Many_loop_collects {T} (P : Parser T) fuel s p vs q :
  collects P fuel s p vs q ->
  forall gas acc, (List.length vs < gas)%nat ->
    Many_loop P fuel gas s p acc = Ret (Success q (acc ++ vs)%list).
Proof.
  induction 1 as [p Hend | p r Hend Hrun Hfail
                  | p r v vs q Hend Hrun Hok Hval Hrest IH];
    intros gas acc Hgas; (destruct gas as [|gas]; [simpl in Hgas; lia|]);
    simpl.
  - rewrite Hend, Z.eqb_refl, app_nil_r. reflexivity.
  - apply Z.eqb_neq in Hend. rewrite Hend, Hrun. simpl.
    rewrite Hfail, app_nil_r. reflexivity.
  - apply Z.eqb_neq in Hend. rewrite Hend, Hrun. simpl.
    rewrite Hok. unfold PR.GetResult. rewrite Hval. simpl.
    rewrite IH by (simpl in Hgas; lia).
    rewrite <- app_assoc. reflexivity.
Qed.

Lemma Many_collects {T} (P : Parser T) fuel s p vs q :
  collects P fuel s p vs q -> (List.length vs < fuel)%nat ->
  run (Many P) fuel s p = Ret (Success q vs).
Proof.
  intros Hc Hfuel. unfold run, Many. simpl.
  rewrite (Many_loop_collects P fuel s p vs q Hc fuel [] Hfuel).
  reflexivity.
Qed.

(** C4, as stated, fails: with two matches available and an upper bound of
    one, [Between] does not stop after the first match; it fails at the start
    position. *)
Lemma Between_cap_counterexample :
  run (Between 0 1 (Char "a")) 3 "aa" 0 = Ret (Fail 0) /\
  run (Between 0 1 (Char "a")) 3 "aa" 0 <> Ret (Success 1 ["a"%char]).
Proof. split; [reflexivity | discriminate]. Qed.

(** C4, amended. [Between(min, max, P)] runs the unbounded [Many(P)] and
    compares the number of matches afterwards.  When [P] matches
    consecutively from [p], yielding [vs], until it fails or the input is
    exhausted at [q]: [Between] succeeds with all of [vs] at [q] if the
    count lies within the bounds, and fails at [p], consuming nothing, if
    the count exceeds [max] or is below [min]. *)
Theorem Between_compares_after_collecting {T} (P : Parser T)
    (lo hi fuel : nat) (s : string) (p q : Z) (vs : list T) :
  collects P fuel s p vs q -> (List.length vs < fuel)%nat ->
  ((lo <= List.length vs <= hi)%nat ->
     run (Between lo hi P) fuel s p = Ret (Success q vs)) /\
  ((hi < List.length vs)%nat ->
     run (Between lo hi P) fuel s p = Ret (Fail p)) /\
  ((List.length vs < lo)%nat ->
     run (Between lo hi P) fuel s p = Ret (Fail p)).
Proof.
  intros Hc Hfuel.
  assert (HB : run (Between lo hi P) fuel s p =
               Ret (if (lo <=? List.length vs)%nat
                       && (List.length vs <=? hi)%nat
                    then Success q vs else Fail p)).
  { unfold run at 1, Between. simpl.
    rewrite (Many_collects P fuel s p vs q Hc Hfuel). simpl.
    destruct ((lo <=? List.length vs)%nat && (List.length vs <=? hi)%nat);
      reflexivity. }
  rewrite HB. repeat split; intros Hn.
  - destruct Hn as [H1 H2].
    apply Nat.leb_le in H1, H2. rewrite H1, H2. reflexivity.
  - apply Nat.leb_gt in Hn. rewrite Hn, andb_false_r. reflexivity.
  - apply Nat.leb_gt in Hn. rewrite Hn. reflexivity.
Qed.

Lemma Between_compares_after_collecting_witness :
  run (Between 1 2 (Char "a")) 4 "aab" 0
    = Ret (Success 2 ["a"%char; "a"%char]) /\
  run (Between 0 1 (Char "a")) 4 "aab" 0 = Ret (Fail 0).
Proof.
  assert (Hc : collects (Char "a") 4 "aab" 0 ["a"%char; "a"%char] 2).
  { eapply (collects_step _ _ _ 0 (Success 1 "a"%char));
      [discriminate | reflexivity | reflexivity | reflexivity |].
    eapply (collects_step _ _ _ 1 (Success 2 "a"%char));
      [discriminate | reflexivity | reflexivity | reflexivity |].
    apply (collects_fail _ _ _ 2 (Fail 2));
      [discriminate | reflexivity | reflexivity]. }
  assert (Hf : (List.length ["a"%char; "a"%char] < 4)%nat) by (simpl; lia).
  split.
  - apply (proj1 (Between_compares_after_collecting
                    (Char "a") 1 2 4 "aab" 0 2 _ Hc Hf)). simpl. lia.
  - apply (proj1 (proj2 (Between_compares_after_collecting
                           (Char "a") 0 1 4 "aab" 0 2 _ Hc Hf))).
    simpl. lia.
Defined.

(** ** AtLeast and AtLeastOne *)

(** [AtLeast(n, P)] succeeds with everything [Many(P)] collected when that
    is at least [n] matches, and fails at the start position otherwise. *)
Lemma AtLeast_after_collecting {T} (P : Parser T) (n fuel : nat) (s : string)
    (p q : Z) (vs : list T) :
  collects P fuel s p vs q -> (List.length vs < fuel)%nat ->
  run (AtLeast n P) fuel s p
    = Ret (if (n <=? List.length vs)%nat then Success q vs else Fail p).
Proof.
  intros Hc Hfuel. unfold run at 1, AtLeast. simpl.
  rewrite (Many_collects P fuel s p vs q Hc Hfuel). simpl.
  destruct (n <=? List.length vs)%nat; reflexivity.
Qed.

(** C5. The call inside [AtLeastOne] passes the parser where the count
    belongs and the count where the parser belongs, so [AtLeastOne] has no
    instance, while the call the specification describes resolves to
    [AtLeast(1, P)]. *)
Theorem AtLeastOne_has_no_instance {T} (P : Parser T) :
  AtLeastOne P = None /\
  AtLeast_call (arg_count 1) (arg_parser P) = Some (AtLeast 1 P).
Proof. split; reflexivity. Qed.

(** ** Exceptions and unchecked reads *)

(** C1. [integer] on an input without a digit, with or without a sign,
    reaches [std::stoi] with nothing to convert and leaves by
    [std::invalid_argument]. *)
Theorem integer_without_digit_throws (fuel : nat) :
  run integer (S fuel) "abc" 0 = Throw invalid_argument /\
  run integer (S fuel) "-x" 0 = Throw invalid_argument.
Proof. split; reflexivity. Qed.

(** C2. Started past the end of the input, the class parsers and [String]
    read the character before any comparison with the length: the read is
    out of bounds.  [any] compares first and fails normally.  Such a start
    is reached from position 0 by the library itself: [Not] steps past the
    end of the empty input and [letter] then reads there. *)
Theorem unchecked_read_past_end (fuel : nat) :
  run letter fuel "ab" 3 = Undefined /\
  run digit fuel "ab" 3 = Undefined /\
  run whitespace fuel "ab" 3 = Undefined /\
  run alphanumeric fuel "ab" 3 = Undefined /\
  run (String_ "a") fuel "ab" 3 = Undefined /\
  run any fuel "ab" 3 = Ret (Fail 3) /\
  run (SeqSecond (Not (Char "x")) letter) fuel "" 0 = Undefined.
Proof. repeat split; reflexivity. Qed.

(** ** The scanning parsers and [word] *)

Lemma string_drop_empty n : string_drop n "" = "".
Proof. destruct n; reflexivity. Qed.

Lemma string_drop_get n : forall s,
  (n < String.length s)%nat ->
  exists c, String.get n s = Some c /\
            string_drop n s = String c (string_drop (S n) s).
Proof.
  induction n as [|n IH]; intros [|c s] Hn; simpl in Hn; try lia.
  - exists c. split; reflexivity.
  - destruct (IH s ltac:(lia)) as (c' & Hget & Hdrop).
    exists c'. split; [exact Hget | exact Hdrop].
Qed.

Lemma string_drop_all n : forall s,
  (String.length s <= n)%nat -> string_drop n s = "".
Proof.
  induction n as [|n IH]; intros [|c s] Hn; simpl in *; try reflexivity;
    try lia.
  apply IH. lia.
Qed.

Lemma string_drop_length n : forall s,
  String.length (string_drop n s) = (String.length s - n)%nat.
Proof.
  induction n as [|n IH]; intros [|c s]; simpl; try reflexivity.
  apply IH.
Qed.

Lemma string_drop_add n : forall m s,
  string_drop (n + m) s = string_drop m (string_drop n s).
Proof.
  induction n as [|n IH]; intros m [|c s]; simpl; try reflexivity.
  - rewrite !string_drop_empty. reflexivity.
  - apply IH.
Qed.

Lemma take_while_length test : forall s,
  (String.length (take_while test s) <= String.length s)%nat.
Proof.
  induction s as [|c s IH]; simpl.
  - lia.
  - destruct (test c); simpl; lia.
Qed.

Lemma substring_drop n : forall m s,
  substring n m s = substring 0 m (string_drop n s).
Proof.
  induction n as [|n IH]; intros m [|c s]; simpl; try reflexivity.
  - destruct m; reflexivity.
  - apply IH.
Qed.

Lemma substring_take_while test : forall s,
  substring 0 (String.length (take_while test s)) s = take_while test s.
Proof.
  induction s as [|c s IH]; simpl.
  - reflexivity.
  - destruct (test c); simpl.
    + rewrite IH. reflexivity.
    + reflexivity.
Qed.

Lemma char_at_inside s p :
  0 <= p < size s -> size s <= INT_MAX ->
  exists c, char_at s p = Ret c /\
            string_drop (Z.to_nat p) s
              = String c (string_drop (S (Z.to_nat p)) s).
Proof.
  intros Hp Hlen. unfold char_at.
  rewrite to_size_t_small by (unfold INT_MAX, SIZE_MODULUS in *; lia).
  unfold index. destruct (Z.ltb_spec p (size s)) as [_|]; [|lia].
  destruct (string_drop_get (Z.to_nat p) s) as (c & Hget & Hdrop).
  { unfold size in Hp. lia. }
  exists c. rewrite Hget. split; [reflexivity | exact Hdrop].
Qed.

Lemma char_at_end s : size s <= INT_MAX -> char_at s (size s) = Ret zero.
Proof.
  intros Hlen. unfold char_at. pose proof (size_nonneg s).
  rewrite to_size_t_small by (unfold INT_MAX, SIZE_MODULUS in *; lia).
  unfold index. rewrite Z.ltb_irrefl, Z.eqb_refl. reflexivity.
Qed.

(** On an in-bounds start the scanning loop stops at the end of the longest
    prefix of the remaining input that passes the test; the terminating null
    character read at the end of the input stops it when nothing else does. *)
Lemma scan_while_spec test gas : forall s p,
  test zero = false ->
  0 <= p <= size s -> size s <= INT_MAX ->
  (Z.to_nat (size s - p) < gas)%nat ->
  scan_while test gas s p
    = Ret (p + size (take_while test (string_drop (Z.to_nat p) s))).
Proof.
  induction gas as [|gas IH]; intros s p Hz Hp Hlen Hgas; [lia|].
  simpl. destruct (Z.eq_dec p (size s)) as [-> | Hne].
  - rewrite char_at_end by assumption. simpl. rewrite Hz.
    rewrite string_drop_all by (unfold size; lia).
    simpl. change (size "") with 0. rewrite Z.add_0_r. reflexivity.
  - destruct (char_at_inside s p) as (c & Hc & Hdrop); [lia | assumption |].
    rewrite Hc, Hdrop. cbn [bind take_while].
    destruct (test c) eqn:Htest.
    + rewrite int_add_in_range
        by (unfold in_range, INT_MIN, INT_MAX in *; lia).
      cbn [bind]. rewrite IH; try assumption; try lia.
      replace (Z.to_nat (p + 1)) with (S (Z.to_nat p)) by lia.
      rewrite size_String. f_equal. lia.
    + change (size "") with 0. rewrite Z.add_0_r. reflexivity.
Qed.

Lemma many_class_spec test fuel s st :
  test zero = false ->
  0 <= position st <= size s -> size s <= INT_MAX ->
  (String.length s < fuel)%nat ->
  many_class test fuel st s
    = Ret (Success
             (position st
              + size (take_while test (string_drop (Z.to_nat (position st)) s)))
             (take_while test (string_drop (Z.to_nat (position st)) s))).
Proof.
  intros Hz Hp Hlen Hfuel. unfold many_class. cbv zeta.
  set (p := position st) in *.
  set (tw := take_while test (string_drop (Z.to_nat p) s)).
  assert (Htw : size tw <= size s - p).
  { unfold tw, size.
    pose proof (take_while_length test (string_drop (Z.to_nat p) s)) as H.
    rewrite string_drop_length in H. unfold size in Hp. lia. }
  pose proof (size_nonneg tw) as Hnn.
  rewrite scan_while_spec; try assumption; [| unfold size in *; lia].
  fold tw. simpl.
  replace (p + size tw - p) with (size tw) by lia.
  rewrite int_sub_in_range;
    [| unfold in_range, INT_MIN, INT_MAX in *; lia].
  simpl. replace (p + size tw - p) with (size tw) by lia.
  rewrite !to_size_t_small by (unfold INT_MAX, SIZE_MODULUS in *; lia).
  unfold substr. destruct (Z.ltb_spec (size s) p) as [|_]; [lia|].
  rewrite substring_drop.
  replace (Z.to_nat (size tw)) with (String.length tw)
    by (unfold size; lia).
  unfold tw. rewrite substring_take_while. reflexivity.
Qed.

(** C8, as stated, fails: on an input with no letter after the whitespace,
    [word] succeeds with the empty string. *)
Lemma word_without_letter_counterexample :
  run word 3 " 1" 0 = Ret (Success 1 "") /\
  run word 2 "1" 0 = Ret (Success 0 "").
Proof. split; reflexivity. Qed.

(** C8, amended. Started inside the input, [word] skips the leading
    whitespace and returns the maximal run of letters that follows, without
    the whitespace; the run may be empty, so [word] succeeds whether or not
    a letter follows. *)
Theorem word_spec (fuel : nat) (s : string) (p : Z) :
  0 <= p <= size s -> size s <= INT_MAX -> (String.length s < fuel)%nat ->
  let rest := string_drop (Z.to_nat p) s in
  let ws := take_while is_whitespace rest in
  let ls := take_while is_letter (string_drop (String.length ws) rest) in
  run word fuel s p = Ret (Success (p + size ws + size ls) ls).
Proof.
  intros Hp Hlen Hfuel rest ws ls.
  assert (Hws : run whitespaces fuel s p = Ret (Success (p + size ws) ws)).
  { unfold run, whitespaces.
    rewrite many_class_spec; try assumption; reflexivity. }
  assert (Hle : 0 <= size ws <= size s - p).
  { split; [apply size_nonneg|]. unfold ws, rest, size.
    pose proof (take_while_length is_whitespace
                  (string_drop (Z.to_nat p) s)) as H.
    rewrite string_drop_length in H. unfold size in Hp. lia. }
  assert (Hdrop : string_drop (Z.to_nat (p + size ws)) s
                  = string_drop (String.length ws) rest).
  { unfold rest. rewrite <- string_drop_add. f_equal. unfold size. lia. }
  assert (Hls : run letters fuel s (p + size ws)
                = Ret (Success (p + size ws + size ls) ls)).
  { unfold run, letters.
    rewrite many_class_spec; try assumption; try reflexivity.
    - simpl position. rewrite Hdrop. reflexivity.
    - simpl position. lia. }
  unfold run at 1, word, Map, SeqPair. cbn [success negb position].
  rewrite Hws. cbn [bind].
  change (PR.Success (Success (p + size ws) ws)) with true.
  cbn [negb]. rewrite Success_position, Hls. cbn [bind].
  reflexivity.
Qed.

Lemma word_spec_witness :
  run word 11 "  hi there" 0 = Ret (Success 4 "hi") /\
  run word 3 " 1" 0 = Ret (Success 1 "").
Proof.
  split.
  - apply (word_spec 11 "  hi there" 0);
      [vm_compute; split; discriminate | vm_compute; discriminate
      | simpl; lia].
  - apply (word_spec 3 " 1" 0);
      [vm_compute; split; discriminate | vm_compute; discriminate
      | simpl; lia].
Defined.

(** Whatever the input, [integer] started on a character that is neither a
    digit nor a minus sign throws: the digit scan is empty and [std::stoi]
    has nothing to convert. *)
Lemma substring_zero n : forall s, substring n 0 s = "".
Proof.
  induction n as [|n IH]; intros [|c s]; simpl; try reflexivity. apply IH.
Qed.

Lemma integer_throws_on_non_digit (fuel : nat) (s : string) (p : Z)
    (c : ascii) :
  0 <= p < size s -> size s <= INT_MAX ->
  char_at s p = Ret c -> is_digit c = false -> c <> "-"%char ->
  run integer (S fuel) s p = Throw invalid_argument.
Proof.
  intros Hp Hlen Hc Hd Hm.
  assert (Hnext : exists c2, char_at s (p + 1) = Ret c2).
  { destruct (Z.eq_dec (p + 1) (size s)) as [-> | Hne].
    - exists zero. apply char_at_end. assumption.
    - destruct (char_at_inside s (p + 1)) as (c2 & H2 & _);
        [lia | assumption | eauto]. }
  destruct Hnext as (c2 & Hc2).
  assert (Hc0 : Ascii.eqb c "0" = false).
  { apply Ascii.eqb_neq. intros ->. discriminate Hd. }
  apply Ascii.eqb_neq in Hm.
  unfold run, integer. cbn [position bind scan_while].
  rewrite Hc. cbn [bind]. rewrite Hm. cbn [bind]. rewrite Hc. cbn [bind].
  rewrite int_add_in_range
    by (unfold in_range, INT_MIN, INT_MAX in *; lia).
  cbn [bind]. rewrite Hc2. cbn [bind]. rewrite Hc0. cbn [andb].
  rewrite Hd. cbn [bind].
  rewrite int_sub_in_range
    by (rewrite Z.sub_diag; unfold in_range, INT_MIN, INT_MAX; lia).
  cbn [bind]. rewrite Z.sub_diag.
  rewrite to_size_t_small by (unfold INT_MAX, SIZE_MODULUS in *; lia).
  unfold substr. destruct (Z.ltb_spec (size s) p) as [|_]; [lia|].
  change (to_size_t 0) with 0. change (Z.to_nat 0) with 0%nat.
  cbn [bind].
  rewrite substring_zero. reflexivity.
Qed.

(** ** Termination *)

Lemma Many_of_Try_loop fuel gas : forall results,
  Many_loop (Try (Char "a") "x"%char) fuel gas "b" 0 results = OutOfFuel.
Proof.
  induction gas as [|gas IH]; intros results.
  - reflexivity.
  - simpl. apply IH.
Qed.

(** C3, as stated, fails: [Try(Char('a'), 'x')] succeeds on ["b"] without
    advancing, and [Many] of it exhausts every bound on its iterations. *)
Lemma Many_of_Try_counterexample :
  ~ exists fuel r, run (Many (Try (Char "a") "x"%char)) fuel "b" 0 = Ret r.
Proof.
  intros (fuel & r & H). unfold run, Many in H. simpl position in H.
  rewrite Many_of_Try_loop in H. discriminate.
Qed.

Lemma substr_not_OutOfFuel s pos count : substr s pos count <> OutOfFuel.
Proof. unfold substr. destruct (size s <? pos); discriminate. Qed.

Lemma stoi_not_OutOfFuel str : stoi str <> OutOfFuel.
Proof.
  assert (H : forall b s, stoi_value b s <> OutOfFuel).
  { intros b s. unfold stoi_value. destruct (stoi_digits s None).
    - destruct (in_int _); discriminate.
    - discriminate. }
  unfold stoi. destruct (skip_space str) as [|c rest]; [apply H|].
  destruct (Ascii.eqb c "-") eqn:E1.
  - apply Ascii.eqb_eq in E1. subst. apply H.
  - destruct (Ascii.eqb c "+") eqn:E2.
    + apply Ascii.eqb_eq in E2. subst. apply H.
    + destruct c as [[] [] [] [] [] [] [] []]; try apply H;
        discriminate.
Qed.

Ltac inv_oof :=
  repeat match goal with
  | H : bind _ _ = OutOfFuel |- _ =>
      let a := fresh "a" in let E := fresh "E" in
      apply bind_OutOfFuel_inv in H; destruct H as [H | (a & E & H)]
  | H : Ret _ = OutOfFuel |- _ => discriminate H
  | H : Undefined = OutOfFuel |- _ => discriminate H
  | H : Throw _ = OutOfFuel |- _ => discriminate H
  | H : char_at _ _ = OutOfFuel |- _ =>
      exfalso; exact (char_at_not_OutOfFuel _ _ H)
  | H : index _ _ = OutOfFuel |- _ =>
      exfalso; exact (index_not_OutOfFuel _ _ H)
  | H : int_add _ _ = OutOfFuel |- _ =>
      exfalso; exact (int_add_not_OutOfFuel _ _ H)
  | H : int_sub _ _ = OutOfFuel |- _ =>
      exfalso; exact (int_sub_not_OutOfFuel _ _ H)
  | H : substr _ _ _ = OutOfFuel |- _ =>
      exfalso; exact (substr_not_OutOfFuel _ _ _ H)
  | H : stoi _ = OutOfFuel |- _ =>
      exfalso; exact (stoi_not_OutOfFuel _ H)
  | H : (if ?c then _ else _) = OutOfFuel |- _ =>
      let E := fresh "E" in destruct c eqn:E
  | H : match ?o with Some _ => _ | None => _ end = OutOfFuel |- _ =>
      let E := fresh "E" in destruct o eqn:E
  end.

Lemma GetResult_not_OutOfFuel {T} (r : ParseResult T) :
  PR.GetResult r <> OutOfFuel.
Proof. unfold PR.GetResult. destruct (result r); discriminate. Qed.

Lemma halts_from_le {T} (p : Parser T) N N' :
  halts_from N p -> (N <= N')%nat -> halts_from N' p.
Proof. intros H Hle fuel st s Hf. apply H. lia. Qed.

(** *** Primitives *)

Lemma advancing_char_class test : advancing (char_class test).
Proof.
  intros fuel st s r H Hs. unfold char_class in H. inv_ret; pr_simpl.
  - lia.
  - discriminate.
Qed.

Lemma keeps_range_char_class test : keeps_range (char_class test).
Proof.
  intros fuel st s r Hr H. unfold char_class in H. inv_ret; pr_simpl; auto.
Qed.

Lemma halts_char_class test : halts_from 0 (char_class test).
Proof.
  intros fuel st s _ _ H. unfold char_class in H. inv_oof.
Qed.

Lemma keeps_range_Char c : keeps_range (Char c).
Proof.
  intros fuel st s r Hr H. unfold Char in H. inv_ret; pr_simpl; auto.
Qed.

Lemma halts_Char c : halts_from 0 (Char c).
Proof. intros fuel st s _ _ H. unfold Char in H. inv_oof. Qed.

Lemma keeps_range_any : keeps_range any.
Proof.
  intros fuel st s r Hr H. unfold any in H. inv_ret; pr_simpl; auto.
Qed.

Lemma halts_any : halts_from 0 any.
Proof. intros fuel st s _ _ H. unfold any in H. inv_oof. Qed.

Lemma keeps_range_AnyOfChars characters : keeps_range (AnyOfChars characters).
Proof.
  intros fuel st s r Hr H. unfold AnyOfChars in H. inv_ret.
  - destruct a as [r'|]; inv_ret; [|assumption].
    clear E. revert E0. induction characters as [|ch rest IH]; simpl;
      intros H; inv_ret; auto.
  - assumption.
Qed.

Lemma AnyOfChars_loop_not_OutOfFuel characters s p :
  AnyOfChars_loop characters s p <> OutOfFuel.
Proof.
  induction characters as [|ch rest IH]; simpl; intros H; inv_oof; auto.
Qed.

Lemma halts_AnyOfChars characters : halts_from 0 (AnyOfChars characters).
Proof.
  intros fuel st s _ _ H. unfold AnyOfChars in H. inv_oof.
  exact (AnyOfChars_loop_not_OutOfFuel _ _ _ H).
Qed.

Lemma keeps_range_String pattern : keeps_range (String_ pattern).
Proof.
  intros fuel st s r Hr H. unfold String_ in H. inv_ret; pr_simpl; auto.
Qed.

Lemma String_loop_not_OutOfFuel rest : forall i s p,
  String_loop rest i s p <> OutOfFuel.
Proof.
  induction rest as [|c rest IH]; simpl; intros i s p H; inv_oof.
  exact (IH _ _ _ H).
Qed.

Lemma halts_String pattern : halts_from 0 (String_ pattern).
Proof.
  intros fuel st s _ _ H. unfold String_ in H. inv_oof.
  exact (String_loop_not_OutOfFuel _ _ _ _ H).
Qed.

Lemma scan_while_in_range test gas : forall s p q,
  in_range p -> scan_while test gas s p = Ret q -> in_range q.
Proof.
  induction gas as [|gas IH]; simpl; intros s p q Hp H.
  - discriminate.
  - inv_ret; eauto.
Qed.

Lemma scan_while_halts test gas : forall s p,
  in_range p -> INT_MAX - p < Z.of_nat gas ->
  scan_while test gas s p <> OutOfFuel.
Proof.
  induction gas as [|gas IH]; intros s p Hp Hgas H.
  - unfold in_range in Hp. lia.
  - simpl in H. inv_oof. inv_ret.
    apply (IH s a0); auto. unfold in_range in *. lia.
Qed.

Lemma keeps_range_many_class test : keeps_range (many_class test).
Proof.
  intros fuel st s r Hr H. unfold many_class in H. cbv zeta in H. inv_ret.
  rewrite Success_position. eapply scan_while_in_range; eauto.
Qed.

Lemma halts_many_class test N :
  4294967296 <= Z.of_nat N -> halts_from N (many_class test).
Proof.
  intros HN fuel st s Hf Hr H. unfold many_class in H. cbv zeta in H.
  inv_oof.
  apply scan_while_halts in H; auto.
  unfold in_range, INT_MIN, INT_MAX in *. lia.
Qed.

Lemma keeps_range_integer : keeps_range integer.
Proof.
  intros fuel st s r Hr H. unfold integer in H. cbv zeta in H.
  inv_ret; try assumption; rewrite Success_position;
    match goal with
    | H : scan_while _ _ _ _ = Ret _ |- _ =>
        apply scan_while_in_range in H; auto
    end.
Qed.

Lemma halts_integer N : 4294967296 <= Z.of_nat N -> halts_from N integer.
Proof.
  intros HN fuel st s Hf Hr H. unfold integer in H. cbv zeta in H.
  inv_oof;
    match goal with
    | H : scan_while _ _ _ _ = OutOfFuel |- _ =>
        apply scan_while_halts in H; auto
    end; inv_ret; auto; unfold in_range, INT_MIN, INT_MAX in *; lia.
Qed.

(** *** Combinators *)

Ltac range_step :=
  match goal with
  | Hk : keeps_range ?p, H : ?p ?fuel ?st ?s = Ret ?r |- _ =>
      let L := fresh "L" in
      pose proof (Hk fuel st s r) as L; revert H
  | Hk : keeps_range ?p, H : run ?p ?fuel ?s ?q = Ret ?r |- _ =>
      let L := fresh "L" in
      pose proof (Hk fuel (mkState true q) s r) as L; revert H
  end.

Ltac range_solve :=
  repeat range_step; intros; pr_simpl;
  repeat match goal with
  | H : in_range ?q -> _ -> _, Hq : in_range ?q |- _ =>
      specialize (H Hq ltac:(eassumption))
  end; auto.

Ltac halt_step :=
  match goal with
  | Hh : halts_from ?N ?p, H : ?p ?fuel ?st ?s = OutOfFuel |- _ =>
      exfalso; apply (Hh fuel st s); [lia | range_solve | exact H]
  | Hh : halts_from ?N ?p, H : run ?p ?fuel ?s ?q = OutOfFuel |- _ =>
      exfalso; apply (Hh fuel (mkState true q) s);
        [lia | range_solve | exact H]
  | H : PR.GetResult _ = OutOfFuel |- _ =>
      exfalso; exact (GetResult_not_OutOfFuel _ H)
  end.

Lemma keeps_range_Map {T R} (p : Parser T) (f : T -> Outcome R) :
  keeps_range p -> keeps_range (Map p f).
Proof.
  intros Hp fuel st s r Hr H. unfold Map in H. inv_ret; range_solve.
Qed.

Lemma halts_Map {T R} (p : Parser T) (f : T -> R) N :
  halts_from N p -> halts_from N (Map p (fun v => Ret (f v))).
Proof.
  intros Hp fuel st s Hf Hr H. unfold Map in H. inv_oof; halt_step.
Qed.

Lemma keeps_range_Discard {T} (p : Parser T) :
  keeps_range p -> keeps_range (Discard p).
Proof.
  intros Hp fuel st s r Hr H. unfold Discard in H. inv_ret; range_solve.
Qed.

Lemma halts_Discard {T} (p : Parser T) N :
  halts_from N p -> halts_from N (Discard p).
Proof.
  intros Hp fuel st s Hf Hr H. unfold Discard in H. inv_oof; halt_step.
Qed.

Lemma keeps_range_SeqFirst {T} (p : Parser T) q :
  keeps_range p -> keeps_range q -> keeps_range (SeqFirst p q).
Proof.
  intros Hp Hq fuel st s r Hr H. unfold SeqFirst in H. inv_ret; range_solve.
Qed.

Lemma keeps_range_SeqSecond {T} p (q : Parser T) :
  keeps_range p -> keeps_range q -> keeps_range (SeqSecond p q).
Proof.
  intros Hp Hq fuel st s r Hr H. unfold SeqSecond in H. inv_ret; range_solve.
Qed.

Lemma keeps_range_SeqVoid p q :
  keeps_range p -> keeps_range q -> keeps_range (SeqVoid p q).
Proof.
  intros Hp Hq fuel st s r Hr H. unfold SeqVoid in H. inv_ret; range_solve.
Qed.

Lemma keeps_range_SeqPair {T1 T2} (p : Parser T1) (q : Parser T2) :
  keeps_range p -> keeps_range q -> keeps_range (SeqPair p q).
Proof.
  intros Hp Hq fuel st s r Hr H. unfold SeqPair in H. inv_ret; range_solve.
Qed.

Lemma keeps_range_Or {T} (p q : Parser T) :
  keeps_range p -> keeps_range q -> keeps_range (Or p q).
Proof.
  intros Hp Hq fuel st s r Hr H. unfold Or in H. inv_ret; range_solve.
Qed.

Lemma keeps_range_Try {T} (p : Parser T) d :
  keeps_range p -> keeps_range (Try p d).
Proof.
  intros Hp fuel st s r Hr H. unfold Try in H. inv_ret; range_solve.
Qed.

Lemma keeps_range_Not {T} (p : Parser T) : keeps_range (Not p).
Proof.
  intros fuel st s r Hr H. unfold Not in H. inv_ret; range_solve.
Qed.

Lemma halts_SeqFirst {T} (p : Parser T) q Np Nq :
  keeps_range p -> halts_from Np p -> halts_from Nq q ->
  halts_from (Nat.max Np Nq) (SeqFirst p q).
Proof.
  intros Kp Hp Hq fuel st s Hf Hr H. unfold SeqFirst in H.
  inv_oof; halt_step.
Qed.

Lemma halts_SeqSecond {T} p (q : Parser T) Np Nq :
  keeps_range p -> halts_from Np p -> halts_from Nq q ->
  halts_from (Nat.max Np Nq) (SeqSecond p q).
Proof.
  intros Kp Hp Hq fuel st s Hf Hr H. unfold SeqSecond in H.
  inv_oof; halt_step.
Qed.

Lemma halts_SeqVoid p q Np Nq :
  keeps_range p -> halts_from Np p -> halts_from Nq q ->
  halts_from (Nat.max Np Nq) (SeqVoid p q).
Proof.
  intros Kp Hp Hq fuel st s Hf Hr H. unfold SeqVoid in H.
  inv_oof; halt_step.
Qed.

Lemma halts_SeqPair {T1 T2} (p : Parser T1) (q : Parser T2) Np Nq :
  keeps_range p -> halts_from Np p -> halts_from Nq q ->
  halts_from (Nat.max Np Nq) (SeqPair p q).
Proof.
  intros Kp Hp Hq fuel st s Hf Hr H. unfold SeqPair in H.
  inv_oof; halt_step.
Qed.

Lemma halts_Or {T} (p q : Parser T) Np Nq :
  halts_from Np p -> halts_from Nq q ->
  halts_from (Nat.max Np Nq) (Or p q).
Proof.
  intros Hp Hq fuel st s Hf Hr H. unfold Or in H. inv_oof; halt_step.
Qed.

Lemma halts_Try {T} (p : Parser T) d N :
  halts_from N p -> halts_from N (Try p d).
Proof.
  intros Hp fuel st s Hf Hr H. unfold Try in H. inv_oof; halt_step.
Qed.

Lemma halts_Not {T} (p : Parser T) N :
  halts_from N p -> halts_from N (Not p).
Proof.
  intros Hp fuel st s Hf Hr H. unfold Not in H. inv_oof; halt_step.
Qed.

(** *** Many *)

Lemma Many_loop_in_range {T} (p : Parser T) fuel gas s :
  keeps_range p ->
  forall q results r,
    in_range q -> Many_loop p fuel gas s q results = Ret r ->
    in_range (PR.GetPosition r).
Proof.
  intros Kp. induction gas as [|gas IH]; simpl; intros q results r Hq H.
  - discriminate.
  - inv_ret; try (rewrite Success_position; assumption).
    apply IH in H; auto. range_solve.
Qed.

Lemma keeps_range_Many {T} (p : Parser T) :
  keeps_range p -> keeps_range (Many p).
Proof.
  intros Kp fuel st s r Hr H. unfold Many in H.
  eapply Many_loop_in_range; eauto.
Qed.

(** Each iteration of [Many] over an advancing parser moves the position
    forward inside the range of [int], so the distance to [INT_MAX] bounds
    the iterations. *)
Lemma Many_loop_halts {T} (p : Parser T) N fuel gas s :
  keeps_range p -> halts_from N p -> advancing p -> (N <= fuel)%nat ->
  forall q results,
    in_range q -> INT_MAX - q < Z.of_nat gas ->
    Many_loop p fuel gas s q results <> OutOfFuel.
Proof.
  intros Kp Hp Ap Hf.
  induction gas as [|gas IH]; intros q results Hq Hgas H.
  - unfold in_range in Hq. lia.
  - simpl in H. inv_oof; try halt_step.
    pose proof (Kp fuel (mkState true q) s a Hq E0) as Hr.
    pose proof (Ap fuel (mkState true q) s a E0 E1) as Hlt.
    simpl in Hlt.
    apply (IH (PR.GetPosition a) (results ++ [a0])%list); auto.
    unfold in_range in Hr. lia.
Qed.

Lemma halts_Many {T} (p : Parser T) N :
  keeps_range p -> halts_from N p -> advancing p ->
  4294967296 <= Z.of_nat N ->
  halts_from N (Many p).
Proof.
  intros Kp Hp Ap HN fuel st s Hf Hr H. unfold Many in H.
  apply (Many_loop_halts p N fuel fuel s) in H; auto.
  unfold in_range, INT_MIN, INT_MAX in *. lia.
Qed.

Lemma keeps_range_AtLeast {T} n (p : Parser T) :
  keeps_range p -> keeps_range (AtLeast n p).
Proof.
  intros Kp fuel st s r Hr H. unfold AtLeast in H.
  pose proof (keeps_range_Many p Kp). inv_ret; range_solve.
Qed.

Lemma keeps_range_Between {T} lo hi (p : Parser T) :
  keeps_range p -> keeps_range (Between lo hi p).
Proof.
  intros Kp fuel st s r Hr H. unfold Between in H.
  pose proof (keeps_range_Many p Kp). inv_ret; range_solve.
Qed.

Lemma halts_AtLeast {T} n (p : Parser T) N :
  keeps_range p -> halts_from N p -> advancing p ->
  4294967296 <= Z.of_nat N ->
  halts_from N (AtLeast n p).
Proof.
  intros Kp Hp Ap HN fuel st s Hf Hr H. unfold AtLeast in H.
  pose proof (halts_Many p N Kp Hp Ap HN). clear Hp.
  inv_oof; halt_step.
Qed.

Lemma halts_Between {T} lo hi (p : Parser T) N :
  keeps_range p -> halts_from N p -> advancing p ->
  4294967296 <= Z.of_nat N ->
  halts_from N (Between lo hi p).
Proof.
  intros Kp Hp Ap HN fuel st s Hf Hr H. unfold Between in H.
  pose proof (halts_Many p N Kp Hp Ap HN). clear Hp.
  inv_oof; halt_step.
Qed.

(** *** AnyOf *)

Lemma AnyOf_loop_in_range {T} (ps : list (Parser T)) fuel s q :
  (forall p, In p ps -> keeps_range p) -> in_range q ->
  forall r, AnyOf_loop ps fuel s q = Ret (Some r) ->
    in_range (PR.GetPosition r).
Proof.
  induction ps as [|p ps IH]; simpl; intros Kps Hq r H.
  - discriminate.
  - inv_ret.
    + exact (Kps p (or_introl eq_refl) fuel (mkState true q) s r Hq E).
    + apply IH; auto.
Qed.

Lemma keeps_range_AnyOf {T} (ps : list (Parser T)) :
  (forall p, In p ps -> keeps_range p) -> keeps_range (AnyOf ps).
Proof.
  intros Kps fuel st s r Hr H. unfold AnyOf in H. inv_ret.
  - destruct a as [r'|]; inv_ret; [|assumption].
    eapply AnyOf_loop_in_range; eauto.
  - assumption.
Qed.

Lemma AnyOf_loop_halts {T} (ps : list (Parser T)) N fuel s q :
  (forall p, In p ps -> halts_from N p) -> (N <= fuel)%nat -> in_range q ->
  AnyOf_loop ps fuel s q <> OutOfFuel.
Proof.
  induction ps as [|p ps IH]; simpl; intros Hps Hf Hq H.
  - discriminate.
  - inv_oof.
    + exact (Hps p (or_introl eq_refl) fuel (mkState true q) s Hf Hq H).
    + apply IH; auto.
Qed.

Lemma halts_AnyOf {T} (ps : list (Parser T)) N :
  (forall p, In p ps -> halts_from N p) -> halts_from N (AnyOf ps).
Proof.
  intros Hps fuel st s Hf Hr H. unfold AnyOf in H. inv_oof.
  exact (AnyOf_loop_halts ps N fuel s (position st) Hps Hf Hr H).
Qed.

(** *** Independence of the bound *)

Lemma bind_stable {A B} (m m' : Outcome A) (k k' : A -> Outcome B) :
  (m <> OutOfFuel -> m' = m) ->
  (forall a, m = Ret a -> k a <> OutOfFuel -> k' a = k a) ->
  bind m k <> OutOfFuel -> bind m' k' = bind m k.
Proof.
  intros Hm Hk H. rewrite Hm by (intros ->; apply H; reflexivity).
  destruct m; try reflexivity. simpl in *. auto.
Qed.

Ltac stable_step :=
  match goal with
  | |- ?X <> OutOfFuel -> ?X = ?X => intros _; reflexivity
  | S : stable ?p |- ?p ?f ?st ?s <> OutOfFuel -> ?p ?f' ?st ?s = _ =>
      apply S; lia
  | S : stable ?p |- run ?p ?f ?s ?q <> OutOfFuel -> run ?p ?f' ?s ?q = _ =>
      apply S; lia
  | |- bind _ _ <> OutOfFuel -> bind _ _ = bind _ _ =>
      apply bind_stable; [| intros ? _]
  | |- (if ?c then _ else _) <> OutOfFuel -> _ => destruct c
  | |- match ?o with Some _ => _ | None => _ end <> OutOfFuel -> _ =>
      destruct o
  end.

Ltac stable_solve := repeat stable_step.

Lemma stable_leaf {T} (p : Parser T) :
  (forall fuel fuel' st s, p fuel' st s = p fuel st s) -> stable p.
Proof. intros H fuel fuel' st s _ _. apply H. Qed.

Lemma stable_char_class test : stable (char_class test).
Proof. apply stable_leaf. reflexivity. Qed.

Lemma stable_Char c : stable (Char c).
Proof. apply stable_leaf. reflexivity. Qed.

Lemma stable_any : stable any.
Proof. apply stable_leaf. reflexivity. Qed.

Lemma stable_AnyOfChars characters : stable (AnyOfChars characters).
Proof. apply stable_leaf. reflexivity. Qed.

Lemma stable_String pattern : stable (String_ pattern).
Proof. apply stable_leaf. reflexivity. Qed.

Lemma scan_while_stable test gas : forall gas' s p,
  (gas <= gas')%nat -> scan_while test gas s p <> OutOfFuel ->
  scan_while test gas' s p = scan_while test gas s p.
Proof.
  induction gas as [|gas IH]; intros gas' s p Hle.
  - intros H. exfalso. apply H. reflexivity.
  - destruct gas' as [|gas']; [lia|]. simpl. stable_solve.
    apply IH. lia.
Qed.

Lemma stable_many_class test : stable (many_class test).
Proof.
  intros fuel fuel' st s Hle. unfold many_class. cbv zeta. stable_solve.
  apply scan_while_stable. exact Hle.
Qed.

Lemma stable_integer : stable integer.
Proof.
  intros fuel fuel' st s Hle. unfold integer. cbv zeta. stable_solve;
    apply scan_while_stable; exact Hle.
Qed.

Lemma stable_Map {T R} (p : Parser T) (f : T -> Outcome R) :
  stable p -> stable (Map p f).
Proof. intros Sp fuel fuel' st s Hle. unfold Map. stable_solve. Qed.

Lemma stable_Discard {T} (p : Parser T) : stable p -> stable (Discard p).
Proof. intros Sp fuel fuel' st s Hle. unfold Discard. stable_solve. Qed.

Lemma stable_SeqFirst {T} (p : Parser T) q :
  stable p -> stable q -> stable (SeqFirst p q).
Proof. intros Sp Sq fuel fuel' st s Hle. unfold SeqFirst. stable_solve. Qed.

Lemma stable_SeqSecond {T} p (q : Parser T) :
  stable p -> stable q -> stable (SeqSecond p q).
Proof. intros Sp Sq fuel fuel' st s Hle. unfold SeqSecond. stable_solve. Qed.

Lemma stable_SeqVoid p q : stable p -> stable q -> stable (SeqVoid p q).
Proof. intros Sp Sq fuel fuel' st s Hle. unfold SeqVoid. stable_solve. Qed.

Lemma stable_SeqPair {T1 T2} (p : Parser T1) (q : Parser T2) :
  stable p -> stable q -> stable (SeqPair p q).
Proof. intros Sp Sq fuel fuel' st s Hle. unfold SeqPair. stable_solve. Qed.

Lemma stable_Or {T} (p q : Parser T) :
  stable p -> stable q -> stable (Or p q).
Proof. intros Sp Sq fuel fuel' st s Hle. unfold Or. stable_solve. Qed.

Lemma stable_Try {T} (p : Parser T) d : stable p -> stable (Try p d).
Proof. intros Sp fuel fuel' st s Hle. unfold Try. stable_solve. Qed.

Lemma stable_Not {T} (p : Parser T) : stable p -> stable (Not p).
Proof. intros Sp fuel fuel' st s Hle. unfold Not. stable_solve. Qed.

Lemma Many_loop_stable {T} (p : Parser T) fuel fuel' s :
  stable p -> (fuel <= fuel')%nat ->
  forall gas gas' q results,
    (gas <= gas')%nat ->
    Many_loop p fuel gas s q results <> OutOfFuel ->
    Many_loop p fuel' gas' s q results = Many_loop p fuel gas s q results.
Proof.
  intros Sp Hle. induction gas as [|gas IH]; intros gas' q results Hg.
  - intros H. exfalso. apply H. reflexivity.
  - destruct gas' as [|gas']; [lia|]. simpl. stable_solve.
    apply IH. lia.
Qed.

Lemma stable_Many {T} (p : Parser T) : stable p -> stable (Many p).
Proof.
  intros Sp fuel fuel' st s Hle. unfold Many.
  apply Many_loop_stable; assumption.
Qed.

Lemma stable_AtLeast {T} n (p : Parser T) : stable p -> stable (AtLeast n p).
Proof.
  intros Sp fuel fuel' st s Hle. unfold AtLeast.
  pose proof (stable_Many p Sp). stable_solve.
Qed.

Lemma stable_Between {T} lo hi (p : Parser T) :
  stable p -> stable (Between lo hi p).
Proof.
  intros Sp fuel fuel' st s Hle. unfold Between.
  pose proof (stable_Many p Sp). stable_solve.
Qed.

Lemma AnyOf_loop_stable {T} (ps : list (Parser T)) fuel fuel' s q :
  (forall p, In p ps -> stable p) -> (fuel <= fuel')%nat ->
  AnyOf_loop ps fuel s q <> OutOfFuel ->
  AnyOf_loop ps fuel' s q = AnyOf_loop ps fuel s q.
Proof.
  intros Sps Hle. induction ps as [|p ps IH]; simpl.
  - reflexivity.
  - assert (Sp : stable p) by (apply Sps; left; reflexivity).
    stable_solve. apply IH. intros p' Hin. apply Sps. right. exact Hin.
Qed.

Lemma stable_AnyOf {T} (ps : list (Parser T)) :
  (forall p, In p ps -> stable p) -> stable (AnyOf ps).
Proof.
  intros Sps fuel fuel' st s Hle. unfold AnyOf. stable_solve.
  apply AnyOf_loop_stable; assumption.
Qed.

(** *** Every productive parser ends *)

(** A bound on the iterations of any loop over [int] positions. *)
Lemma loop_bound : exists B : nat, 4294967296 <= Z.of_nat B.
Proof. exists (Z.to_nat 4294967296). rewrite Z2Nat.id; lia. Qed.

Lemma tame_leaf {T} (p : Parser T) N :
  keeps_range p -> stable p -> halts_from N p -> tame p.
Proof.
  intros Kp Sp Hp. split; [exact Kp | split; [exact Sp|]].
  destruct loop_bound as [B HB].
  exists (Nat.max N B). split; [lia|].
  eapply halts_from_le; [exact Hp | lia].
Qed.

Lemma tame_all {T} (ps : list (Parser T)) :
  (forall p, In p ps -> tame p) ->
  exists N : nat, 4294967296 <= Z.of_nat N /\
                  forall p, In p ps -> halts_from N p.
Proof.
  induction ps as [|p ps IH]; intros Hps.
  - destruct loop_bound as [B HB]. exists B. split; [exact HB | intros p []].
  - destruct IH as (N & HN & Hall); [intros; apply Hps; right; assumption|].
    destruct (Hps p (or_introl eq_refl)) as (_ & _ & Np & HNp & Hp).
    exists (Nat.max N Np). split; [lia|].
    intros p' [<- | Hin].
    + eapply halts_from_le; [exact Hp | lia].
    + eapply halts_from_le; [exact (Hall p' Hin) | lia].
Qed.

Lemma tame_many_class test : tame (many_class test).
Proof.
  destruct loop_bound as [B HB].
  split; [apply keeps_range_many_class | split; [apply stable_many_class|]].
  exists B. split; [exact HB | apply halts_many_class; exact HB].
Qed.

Lemma tame_integer : tame integer.
Proof.
  destruct loop_bound as [B HB].
  split; [apply keeps_range_integer | split; [apply stable_integer|]].
  exists B. split; [exact HB | apply halts_integer; exact HB].
Qed.

Lemma tame_Map {T R} (p : Parser T) (f : T -> R) :
  tame p -> tame (Map p (fun v => Ret (f v))).
Proof.
  intros (K & S & N & HN & H).
  split; [auto using keeps_range_Map | split; [auto using stable_Map|]].
  exists N. split; [exact HN | apply halts_Map; exact H].
Qed.

Lemma tame_SeqPair {T1 T2} (p : Parser T1) (q : Parser T2) :
  tame p -> tame q -> tame (SeqPair p q).
Proof.
  intros (Kp & Sp & Np & HNp & Hp) (Kq & Sq & Nq & HNq & Hq).
  split; [auto using keeps_range_SeqPair | split; [auto using stable_SeqPair|]].
  exists (Nat.max Np Nq). split; [lia | apply halts_SeqPair; assumption].
Qed.

Lemma tame_word : tame word.
Proof. apply (tame_Map _ snd), tame_SeqPair; apply tame_many_class. Qed.

Lemma Productive_tame {T} (p : Parser T) : Productive T p -> tame p.
Proof.
  induction 1;
    unfold letter, digit, whitespace, alphanumeric, whitespaces, letters,
      digits, alphanumerics;
    auto using tame_many_class, tame_integer, tame_word, tame_Map,
      tame_SeqPair;
    try (eapply tame_leaf;
         eauto using keeps_range_Char, halts_Char, stable_Char,
           keeps_range_String, halts_String, stable_String,
           keeps_range_any, halts_any, stable_any,
           keeps_range_char_class, halts_char_class, stable_char_class,
           keeps_range_AnyOfChars, halts_AnyOfChars, stable_AnyOfChars;
         fail);
    repeat match goal with
    | H : tame _ |- _ =>
        let K := fresh "K" in let S := fresh "S" in let N := fresh "N" in
        let HN := fresh "HN" in let Hh := fresh "Hh" in
        destruct H as (K & S & N & HN & Hh)
    end.
  - split; [auto using keeps_range_Discard | split; [auto using stable_Discard|]].
    eexists. split; [|eapply halts_Discard; eassumption]. assumption.
  - split; [auto using keeps_range_SeqFirst
           | split; [auto using stable_SeqFirst|]].
    eexists. split; [|eapply halts_SeqFirst; eassumption]. lia.
  - split; [auto using keeps_range_SeqSecond
           | split; [auto using stable_SeqSecond|]].
    eexists. split; [|eapply halts_SeqSecond; eassumption]. lia.
  - split; [auto using keeps_range_SeqVoid
           | split; [auto using stable_SeqVoid|]].
    eexists. split; [|eapply halts_SeqVoid; eassumption]. lia.
  - split; [auto using keeps_range_Or | split; [auto using stable_Or|]].
    eexists. split; [|eapply halts_Or; eassumption]. lia.
  - split; [auto using keeps_range_Try | split; [auto using stable_Try|]].
    eexists. split; [|eapply halts_Try; eassumption]. assumption.
  - split; [auto using keeps_range_Many | split; [auto using stable_Many|]].
    eexists. split; [|eapply halts_Many; eassumption]. assumption.
  - split; [auto using keeps_range_AtLeast
           | split; [auto using stable_AtLeast|]].
    eexists. split; [|eapply halts_AtLeast; eassumption]. assumption.
  - split; [auto using keeps_range_Between
           | split; [auto using stable_Between|]].
    eexists. split; [|eapply halts_Between; eassumption]. assumption.
  - (* AnyOf *)
    match goal with IH : forall p, In p ps -> tame p |- _ =>
      rename IH into Hall end.
    split; [|split].
    + apply keeps_range_AnyOf. intros p Hin. exact (proj1 (Hall p Hin)).
    + apply stable_AnyOf. intros p Hin. exact (proj1 (proj2 (Hall p Hin))).
    + destruct (tame_all ps Hall) as (N & HN & HallN).
      exists N. split; [exact HN | apply halts_AnyOf; exact HallN].
  - split; [apply keeps_range_Not | split; [auto using stable_Not|]].
    eexists. split; [|eapply halts_Not; eassumption]. assumption.
Qed.

(** Within a bound on loop iterations every productive parser reaches an
    end that does not depend on the bound: a [ParseResult], an exception,
    or an operation with undefined behaviour, which is an out-of-bounds
    read or a signed overflow of a position.  After undefined behaviour the
    source need not return; which parsers do return is settled further
    down, for the parsers that stay inside the input. *)
Theorem productive_parsers_halt {T} (p : Parser T) :
  Productive T p ->
  exists N : nat,
    forall s start,
      in_range start ->
      exists outcome,
        outcome <> OutOfFuel /\
        forall fuel, (N <= fuel)%nat -> run p fuel s start = outcome.
Proof.
  intros HP. destruct (Productive_tame p HP) as (_ & Sp & N & _ & HN).
  exists N. intros s start Hr.
  assert (Hend : run p N s start <> OutOfFuel)
    by exact (HN N (mkState true start) s (Nat.le_refl N) Hr).
  exists (run p N s start). split; [exact Hend|].
  intros fuel Hf. exact (Sp N fuel (mkState true start) s Hf Hend).
Qed.

Lemma productive_parsers_halt_witness :
  exists N : nat,
    forall s start,
      in_range start ->
      exists outcome,
        outcome <> OutOfFuel /\
        forall fuel, (N <= fuel)%nat ->
          run (Many letter) fuel s start = outcome.
Proof.
  exact (productive_parsers_halt (Many letter)
           (P_Many ascii letter P_letter (advancing_char_class is_letter))).
Defined.

(** * Further properties of the library *)

(** ** Reads inside the input *)

Lemma peek_inside s i c rest :
  string_drop i s = String c rest -> peek s i = c.
Proof.
  revert s. induction i as [|i IH]; intros [|c' s] H; simpl in *;
    try discriminate.
  - inversion H. reflexivity.
  - unfold peek in *. simpl. apply IH. exact H.
Qed.

Lemma peek_end s i : (String.length s <= i)%nat -> peek s i = zero.
Proof.
  revert s. induction i as [|i IH]; intros [|c s] H; simpl in *;
    try reflexivity; try lia.
  unfold peek in *. simpl. apply IH. lia.
Qed.

Lemma char_at_peek s p :
  0 <= p <= size s -> size s <= INT_MAX ->
  char_at s p = Ret (peek s (Z.to_nat p)).
Proof.
  intros Hp Hlen. destruct (Z.eq_dec p (size s)) as [-> | Hne].
  - rewrite char_at_end by assumption.
    rewrite peek_end by (unfold size; lia). reflexivity.
  - destruct (char_at_inside s p) as (c & Hc & Hdrop); [lia | assumption |].
    rewrite Hc. erewrite peek_inside by exact Hdrop. reflexivity.
Qed.

Lemma char_class_inside test fuel s p :
  0 <= p <= size s -> size s < INT_MAX ->
  run (char_class test) fuel s p
    = Ret (if test (peek s (Z.to_nat p))
           then Success (p + 1) (peek s (Z.to_nat p)) else Fail p).
Proof.
  intros Hp Hlen. unfold run, char_class. cbn [position].
  rewrite char_at_peek by lia. cbn [bind].
  destruct (test (peek s (Z.to_nat p))); [|reflexivity].
  rewrite int_add_in_range
    by (unfold in_range, INT_MIN, INT_MAX in *; lia).
  reflexivity.
Qed.

(** X1. Started anywhere from the first character to the end of the input,
    [letter], [digit], [whitespace] and [alphanumeric] read no character
    outside the input: each succeeds one position further with the current
    character when it passes the test and fails at the start otherwise; at
    the end of the input the character tested is the terminating null. *)
Theorem class_parsers_inside (fuel : nat) (s : string) (p : Z) :
  0 <= p <= size s -> size s < INT_MAX ->
  let c := peek s (Z.to_nat p) in
  run letter fuel s p
    = Ret (if is_letter c then Success (p + 1) c else Fail p) /\
  run digit fuel s p
    = Ret (if is_digit c then Success (p + 1) c else Fail p) /\
  run whitespace fuel s p
    = Ret (if is_whitespace c then Success (p + 1) c else Fail p) /\
  run alphanumeric fuel s p
    = Ret (if is_alphanumeric c then Success (p + 1) c else Fail p).
Proof.
  intros Hp Hlen c. unfold letter, digit, whitespace, alphanumeric.
  repeat split; apply char_class_inside; assumption.
Qed.

Lemma class_parsers_inside_witness :
  run letter 0 "a1" 0 = Ret (Success 1 "a"%char) /\
  run digit 0 "a1" 0 = Ret (Fail 0) /\
  run whitespace 0 "a1" 0 = Ret (Fail 0) /\
  run alphanumeric 0 "a1" 0 = Ret (Success 1 "a"%char).
Proof.
  apply (class_parsers_inside 0 "a1" 0);
    [vm_compute; split; discriminate | vm_compute; reflexivity].
Defined.



(** ** String *)

Lemma starts_with_length s1 : forall s2,
  starts_with s1 s2 = true -> (String.length s1 <= String.length s2)%nat.
Proof.
  induction s1 as [|a s1 IH]; intros [|b s2] H; simpl in *; try lia;
    try discriminate.
  apply andb_true_iff in H. destruct H as [_ H]. apply IH in H. lia.
Qed.

Lemma String_loop_spec rest : forall i s p,
  0 <= p -> 0 <= i -> p + i <= size s -> size s <= INT_MAX ->
  String_loop rest i s p
    = Ret (starts_with rest (string_drop (Z.to_nat (p + i)) s)).
Proof.
  induction rest as [|c rest IH]; intros i s p Hp Hi Hle Hlen.
  - reflexivity.
  - cbn [String_loop].
    rewrite (to_size_t_small p)
      by (unfold INT_MAX, SIZE_MODULUS in *; lia).
    rewrite Z.mod_small by (unfold INT_MAX, SIZE_MODULUS in *; lia).
    cbv zeta. unfold index.
    destruct (Z.ltb_spec (p + i) (size s)) as [Hlt | Hge].
    + destruct (string_drop_get (Z.to_nat (p + i)) s) as (c' & Hget & Hdrop);
        [unfold size in *; lia|].
      rewrite Hget, Hdrop. cbn [bind starts_with].
      destruct (Z.leb_spec (size s) (p + i)) as [|_]; [lia|].
      rewrite orb_false_r.
      destruct (Ascii.eqb c' c); cbn [negb andb]; [|reflexivity].
      rewrite IH by lia.
      replace (Z.to_nat (p + (i + 1))) with (S (Z.to_nat (p + i))) by lia.
      reflexivity.
    + assert (Heq : p + i = size s) by lia. rewrite Heq, Z.eqb_refl.
      cbn [bind]. rewrite Z.leb_refl, orb_true_r.
      rewrite string_drop_all by (unfold size; lia). reflexivity.
Qed.

(** X3. Started anywhere from the first character to the end of the input,
    [String(pattern)] reads no character outside the input and decides
    whether the rest of the input starts with the pattern: it succeeds with
    the pattern, [len(pattern)] positions further, exactly when it does, and
    fails at the start otherwise; the empty pattern always matches. *)
Theorem String_inside (pattern : string) (fuel : nat) (s : string) (p : Z) :
  0 <= p <= size s -> size s <= INT_MAX ->
  run (String_ pattern) fuel s p
    = Ret (if starts_with pattern (string_drop (Z.to_nat p) s)
           then Success (p + size pattern) pattern else Fail p).
Proof.
  intros Hp Hlen. unfold run, String_. cbn [position].
  rewrite String_loop_spec by lia. cbn [bind]. rewrite Z.add_0_r.
  destruct (starts_with pattern (string_drop (Z.to_nat p) s)) eqn:E;
    [|reflexivity].
  apply starts_with_length in E. rewrite string_drop_length in E.
  assert (Hsz : 0 <= size pattern <= size s - p) by (unfold size in *; lia).
  rewrite to_int_small by lia.
  rewrite int_add_in_range
    by (unfold in_range, INT_MIN, INT_MAX in *; lia).
  reflexivity.
Qed.

Lemma String_inside_witness :
  run (String_ "bc") 0 "abcd" 1 = Ret (Success 3 "bc") /\
  run (String_ "bd") 0 "abcd" 1 = Ret (Fail 1) /\
  run (String_ "") 0 "abcd" 4 = Ret (Success 4 "").
Proof.
  split; [|split].
  - apply (String_inside "bc" 0 "abcd" 1);
      [vm_compute; split; discriminate | vm_compute; discriminate].
  - apply (String_inside "bd" 0 "abcd" 1);
      [vm_compute; split; discriminate | vm_compute; discriminate].
  - apply (String_inside "" 0 "abcd" 4);
      [vm_compute; split; discriminate | vm_compute; discriminate].
Defined.

(** ** AnyOf *)

Lemma AnyOfChars_loop_spec characters : forall s p,
  0 <= p < size s -> size s <= INT_MAX ->
  AnyOfChars_loop characters s p
    = Ret (if mem_char (peek s (Z.to_nat p)) characters
           then Some (Success (p + 1) (peek s (Z.to_nat p))) else None).
Proof.
  induction characters as [|ch rest IH]; intros s p Hp Hlen.
  - reflexivity.
  - cbn [AnyOfChars_loop mem_char]. rewrite char_at_peek by lia.
    cbn [bind]. destruct (Ascii.eqb (peek s (Z.to_nat p)) ch) eqn:E.
    + apply Ascii.eqb_eq in E. subst ch.
      rewrite int_add_in_range
        by (unfold in_range, INT_MIN, INT_MAX in *; lia).
      reflexivity.
    + cbn [orb]. apply IH; assumption.
Qed.






Lemma Or_failure {T} (a b : Parser T) fuel s p r :
  run (Or a b) fuel s p = Ret r -> PR.Success r = false -> r = Fail p.
Proof.
  unfold run at 1, Or. cbn [position]. intros H Hs.
  destruct (run a fuel s p) as [ra| | |]; cbn [bind] in H; try discriminate.
  destruct (PR.Success ra) eqn:Ha; [inversion H; congruence|].
  destruct (run b fuel s p) as [rb| | |]; cbn [bind] in H; try discriminate.
  destruct (PR.Success rb) eqn:Hb; inversion H; congruence.
Qed.

Lemma folded_Or_failure {T} (ps : list (Parser T)) fuel s p r :
  run (fold_right Or never ps) fuel s p = Ret r ->
  PR.Success r = false -> r = Fail p.
Proof.
  destruct ps as [|q ps]; cbn [fold_right].
  - intros H _. inversion H. reflexivity.
  - apply Or_failure.
Qed.

Lemma AnyOf_loop_fold {T} (ps : list (Parser T)) fuel s p :
  found <- AnyOf_loop ps fuel s p ;;
  match found with
  | Some r => Ret r
  | None => Ret (Fail p)
  end
  = run (fold_right Or never ps) fuel s p.
Proof.
  induction ps as [|q ps IH]; cbn [AnyOf_loop fold_right].
  - reflexivity.
  - pose proof (folded_Or_failure ps fuel s p) as Hfail.
    remember (fold_right Or never ps) as tail.
    unfold run at 2, Or. cbn [position].
    destruct (run q fuel s p) as [r| | |]; cbn [bind]; try reflexivity.
    destruct (PR.Success r); [reflexivity|].
    rewrite IH.
    destruct (run tail fuel s p) as [r'| | |]; cbn [bind]; try reflexivity.
    destruct (PR.Success r') eqn:Hs; [reflexivity|].
    rewrite (Hfail r' eq_refl Hs). reflexivity.
Qed.

(** X6. Before the end of the input, the list form of [AnyOf] is the
    alternation [p1 || (p2 || ... )] of its parsers, ending in a parser that
    always fails.  At or past the end of the input it fails without trying
    any of them, where the alternation would still try each one. *)
Theorem AnyOf_is_folded_Or {T} (ps : list (Parser T)) (fuel : nat)
    (s : string) (p : Z) :
  (to_size_t p < size s ->
   run (AnyOf ps) fuel s p = run (fold_right Or never ps) fuel s p) /\
  (size s <= to_size_t p -> run (AnyOf ps) fuel s p = Ret (Fail p)).
Proof.
  split; intros H; unfold run at 1, AnyOf; cbn [position].
  - destruct (Z.ltb_spec (to_size_t p) (size s)) as [_|]; [|lia].
    apply AnyOf_loop_fold.
  - destruct (Z.ltb_spec (to_size_t p) (size s)) as [|_]; [lia|].
    reflexivity.
Qed.

Lemma AnyOf_is_folded_Or_witness :
  run (AnyOf [String_ "ab"; String_ "a"]) 0 "ac" 0
    = run (Or (String_ "ab") (Or (String_ "a") never)) 0 "ac" 0 /\
  run (AnyOf [String_ ""]) 0 "ac" 2 = Ret (Fail 2).
Proof.
  split.
  - apply (proj1 (AnyOf_is_folded_Or [String_ "ab"; String_ "a"] 0 "ac" 0)).
    vm_compute. reflexivity.
  - apply (proj2 (AnyOf_is_folded_Or [String_ ""] 0 "ac" 2)).
    vm_compute. discriminate.
Defined.

(** ** The scanning parsers *)

(** X7. Started anywhere from the first character to the end of the input,
    [whitespaces], [letters], [digits] and [alphanumerics] never fail and
    read no character outside the input: each returns the longest run of
    characters of its class that starts at the position, possibly empty,
    and stops right after it. *)
Theorem scanners_return_longest_run (fuel : nat) (s : string) (p : Z) :
  0 <= p <= size s -> size s <= INT_MAX -> (String.length s < fuel)%nat ->
  let rest := string_drop (Z.to_nat p) s in
  let longest test := Success (p + size (take_while test rest))
                        (take_while test rest) in
  run whitespaces fuel s p = Ret (longest is_whitespace) /\
  run letters fuel s p = Ret (longest is_letter) /\
  run digits fuel s p = Ret (longest is_digit) /\
  run alphanumerics fuel s p = Ret (longest is_alphanumeric).
Proof.
  intros Hp Hlen Hfuel rest longest.
  unfold run, whitespaces, letters, digits, alphanumerics.
  repeat split; rewrite many_class_spec; try assumption; reflexivity.
Qed.

Lemma scanners_return_longest_run_witness :
  run whitespaces 8 "ab12  x" 2 = Ret (Success 2 "") /\
  run letters 8 "ab12  x" 0 = Ret (Success 2 "ab") /\
  run digits 8 "ab12  x" 2 = Ret (Success 4 "12") /\
  run alphanumerics 8 "ab12  x" 0 = Ret (Success 4 "ab12").
Proof.
  split; [|split; [|split]].
  - apply (scanners_return_longest_run 8 "ab12  x" 2);
      [vm_compute; split; discriminate | vm_compute; discriminate
      | simpl; lia].
  - apply (scanners_return_longest_run 8 "ab12  x" 0);
      [vm_compute; split; discriminate | vm_compute; discriminate
      | simpl; lia].
  - apply (scanners_return_longest_run 8 "ab12  x" 2);
      [vm_compute; split; discriminate | vm_compute; discriminate
      | simpl; lia].
  - apply (scanners_return_longest_run 8 "ab12  x" 0);
      [vm_compute; split; discriminate | vm_compute; discriminate
      | simpl; lia].
Defined.

(** ** integer *)











Lemma char_at_past_end s p :
  size s < p <= INT_MAX -> char_at s p = Undefined.
Proof.
  intros Hp. unfold char_at. pose proof (size_nonneg s).
  rewrite to_size_t_small by (unfold INT_MAX, SIZE_MODULUS in *; lia).
  unfold index. destruct (Z.ltb_spec p (size s)) as [|_]; [lia|].
  destruct (Z.eqb_spec p (size s)) as [|_]; [lia|]. reflexivity.
Qed.

(** X10. [integer] reads the character after the first digit position
    before it looks at anything else, so at the end of the input, and on a
    minus sign that is the last character, it reads outside the input; in
    particular [integer] on the empty input is an out-of-bounds read, not a
    failure. *)
Theorem integer_reads_past_end (fuel : nat) (s : string) (p : Z) :
  0 <= p <= size s -> size s < INT_MAX ->
  p = size s \/ (p + 1 = size s /\ peek s (Z.to_nat p) = "-"%char) ->
  run integer fuel s p = Undefined.
Proof.
  intros Hp Hlen Hend. unfold run, integer. cbn [position]. cbv zeta.
  rewrite char_at_peek by lia. cbn [bind].
  destruct Hend as [-> | [Hlast Hminus]].
  - rewrite peek_end by (unfold size; lia).
    change (Ascii.eqb zero "-") with false. cbv iota. cbn [bind].
    rewrite char_at_end by lia. cbn [bind].
    rewrite int_add_in_range
      by (unfold in_range, INT_MIN, INT_MAX in *; lia).
    cbn [bind]. rewrite char_at_past_end by lia. reflexivity.
  - rewrite Hminus. change (Ascii.eqb "-" "-") with true. cbv iota.
    rewrite int_add_in_range
      by (unfold in_range, INT_MIN, INT_MAX in *; lia).
    cbn [bind]. rewrite Hlast. rewrite char_at_end by lia. cbn [bind].
    rewrite int_add_in_range
      by (unfold in_range, INT_MIN, INT_MAX in *; lia).
    cbn [bind]. rewrite char_at_past_end by lia. reflexivity.
Qed.

Lemma integer_reads_past_end_witness :
  run integer 1 "" 0 = Undefined /\ run integer 1 "7-" 1 = Undefined.
Proof.
  split.
  - apply (integer_reads_past_end 1 "" 0);
      [vm_compute; split; discriminate | vm_compute; reflexivity
      | left; reflexivity].
  - apply (integer_reads_past_end 1 "7-" 1);
      [vm_compute; split; discriminate | vm_compute; reflexivity
      | right; split; reflexivity].
Defined.

(** ** Many and AtLeast *)

Lemma Many_loop_sound {T} (P : Parser T) fuel s gas : forall p acc r,
  Many_loop P fuel gas s p acc = Ret r ->
  exists vs q, r = Success q (acc ++ vs)%list /\ collects P fuel s p vs q.
Proof.
  induction gas as [|gas IH]; intros p acc r H; cbn [Many_loop] in H.
  - discriminate.
  - destruct (Z.eqb_spec (to_size_t p) (size s)) as [Hend | Hnot].
    + inversion H. exists [], p. rewrite app_nil_r.
      split; [reflexivity | apply collects_end; exact Hend].
    + destruct (run P fuel s p) as [t| | |] eqn:Hrun; cbn [bind] in H;
        try discriminate.
      destruct (PR.Success t) eqn:Hok.
      * unfold PR.GetResult in H.
        destruct (result t) as [v|] eqn:Hval; cbn [bind] in H;
          [|discriminate].
        destruct (IH _ _ _ H) as (vs & q & -> & Hc).
        exists (v :: vs), q. rewrite <- app_assoc.
        split; [reflexivity|].
        exact (collects_step P fuel s p t v vs q Hnot Hrun Hok Hval Hc).
      * inversion H. exists [], p. rewrite app_nil_r.
        split; [reflexivity|].
        exact (collects_fail P fuel s p t Hnot Hrun Hok).
Qed.

Lemma Many_sound {T} (P : Parser T) fuel s p r :
  run (Many P) fuel s p = Ret r ->
  exists vs q, r = Success q vs /\ collects P fuel s p vs q.
Proof.
  intros H. unfold run, Many in H. cbn [position] in H.
  exact (Many_loop_sound P fuel s fuel p [] r H).
Qed.

(** X11. [Many(P)] returns exactly the consecutive matches of [P]: whenever
    it returns, the result is a success whose values are the matches of [P]
    from the start position on, in order, and whose position is where [P]
    first failed or the input was exhausted; conversely, when [P] matches
    [n] times in a row and then fails or reaches the end of the input,
    [Many(P)] returns those [n] values within [n + 1] iterations.  [Many]
    itself never fails. *)
Theorem Many_returns_the_matches {T} (P : Parser T) (fuel : nat)
    (s : string) (p : Z) :
  (forall r, run (Many P) fuel s p = Ret r ->
     exists vs q, r = Success q vs /\ collects P fuel s p vs q) /\
  (forall vs q, collects P fuel s p vs q -> (List.length vs < fuel)%nat ->
     run (Many P) fuel s p = Ret (Success q vs)).
Proof.
  split.
  - intros r H. exact (Many_sound P fuel s p r H).
  - intros vs q Hc Hf. exact (Many_collects P fuel s p vs q Hc Hf).
Qed.

Lemma Many_returns_the_matches_witness :
  (exists vs q, Success 2 ["a"%char; "b"%char] = Success q vs /\
                collects letter 3 "ab1" 0 vs q) /\
  run (Many digit) 3 "ab1" 0 = Ret (Success 0 []).
Proof.
  split.
  - apply (proj1 (Many_returns_the_matches letter 3 "ab1" 0)).
    reflexivity.
  - apply (proj2 (Many_returns_the_matches digit 3 "ab1" 0) [] 0);
      [|simpl; lia].
    apply (collects_fail _ _ _ 0 (Fail 0));
      [discriminate | reflexivity | reflexivity].
Defined.

Lemma Many_loop_stuck {T} (P : Parser T) fuel s p r v :
  to_size_t p <> size s ->
  run P fuel s p = Ret r -> PR.Success r = true -> result r = Some v ->
  PR.GetPosition r = p ->
  forall gas acc, Many_loop P fuel gas s p acc = OutOfFuel.
Proof.
  intros Hnot Hrun Hok Hval Hpos. induction gas as [|gas IH]; intros acc.
  - reflexivity.
  - cbn [Many_loop]. apply Z.eqb_neq in Hnot. rewrite Hnot, Hrun.
    cbn [bind]. rewrite Hok. unfold PR.GetResult. rewrite Hval.
    cbn [bind]. rewrite Hpos. apply IH.
Qed.

(** X12. [Many] has no progress check: when [P] succeeds at a position
    before the end of the input without moving, [Many(P)] started there
    repeats the same step under every bound on its iterations and never
    returns.  [Try(Q, d)] is such a [P] wherever [Q] fails. *)
Theorem Many_repeats_on_zero_width {T} (P : Parser T) (fuel : nat)
    (s : string) (p : Z) (r : ParseResult T) :
  to_size_t p <> size s -> run P fuel s p = Ret r ->
  (forall v, PR.Success r = true -> result r = Some v ->
     PR.GetPosition r = p -> run (Many P) fuel s p = OutOfFuel) /\
  (forall d, PR.Success r = false ->
     run (Many (Try P d)) fuel s p = OutOfFuel).
Proof.
  intros Hnot Hrun. split.
  - intros v Hok Hval Hpos. unfold run at 1, Many. cbn [position].
    exact (Many_loop_stuck P fuel s p r v Hnot Hrun Hok Hval Hpos fuel []).
  - intros d Hfail. unfold run at 1, Many. cbn [position].
    apply (Many_loop_stuck (Try P d) fuel s p (Success p d) d Hnot);
      try reflexivity.
    unfold run at 1, Try. cbn [position]. rewrite Hrun. cbn [bind].
    rewrite Hfail. reflexivity.
Qed.

Lemma Many_repeats_on_zero_width_witness :
  run (Many (String_ "")) 7 "ab" 0 = OutOfFuel /\
  run (Many (Try digit "0"%char)) 7 "ab" 1 = OutOfFuel.
Proof.
  split.
  - apply (proj1 (Many_repeats_on_zero_width (String_ "") 7 "ab" 0
                    (Success 0 "") ltac:(vm_compute; discriminate) eq_refl)
             ""); reflexivity.
  - apply (proj2 (Many_repeats_on_zero_width digit 7 "ab" 1
                    (Fail 1) ltac:(vm_compute; discriminate) eq_refl)).
    reflexivity.
Defined.

(** X13. [AtLeast(n, P)] runs [Many(P)] to its end and then counts: with
    the matches of [P] collected as for [Many], it succeeds with all of
    them when there are at least [n], and fails at the start position,
    giving back everything [Many] consumed, when there are fewer.
    [AtLeast(0, P)] is [Many(P)], whatever [P] does. *)
Theorem AtLeast_counts_after_Many {T} (P : Parser T) (n fuel : nat)
    (s : string) (p : Z) :
  run (AtLeast 0 P) fuel s p = run (Many P) fuel s p /\
  (forall vs q, collects P fuel s p vs q -> (List.length vs < fuel)%nat ->
     run (AtLeast n P) fuel s p
       = Ret (if (n <=? List.length vs)%nat then Success q vs else Fail p)).
Proof.
  split.
  - unfold run at 1, AtLeast. cbn [position].
    destruct (run (Many P) fuel s p) as [r| | |] eqn:H; try reflexivity.
    destruct (Many_sound P fuel s p r H) as (vs & q & -> & _).
    reflexivity.
  - intros vs q Hc Hf. unfold run at 1, AtLeast. cbn [position].
    rewrite (Many_collects P fuel s p vs q Hc Hf).
    cbn [bind PR.GetResult result Success].
    destruct (n <=? List.length vs)%nat; reflexivity.
Qed.

Lemma AtLeast_counts_after_Many_witness :
  run (AtLeast 0 (Char "a")) 4 "aab" 0 = run (Many (Char "a")) 4 "aab" 0 /\
  run (AtLeast 2 (Char "a")) 4 "aab" 0
    = Ret (Success 2 ["a"%char; "a"%char]) /\
  run (AtLeast 3 (Char "a")) 4 "aab" 0 = Ret (Fail 0).
Proof.
  assert (Hc : collects (Char "a") 4 "aab" 0 ["a"%char; "a"%char] 2).
  { eapply (collects_step _ _ _ 0 (Success 1 "a"%char));
      [discriminate | reflexivity | reflexivity | reflexivity |].
    eapply (collects_step _ _ _ 1 (Success 2 "a"%char));
      [discriminate | reflexivity | reflexivity | reflexivity |].
    apply (collects_fail _ _ _ 2 (Fail 2));
      [discriminate | reflexivity | reflexivity]. }
  assert (Hf : (List.length ["a"%char; "a"%char] < 4)%nat) by (simpl; lia).
  split; [|split].
  - exact (proj1 (AtLeast_counts_after_Many (Char "a") 0 4 "aab" 0)).
  - exact (proj2 (AtLeast_counts_after_Many (Char "a") 2 4 "aab" 0)
             _ 2 Hc Hf).
  - exact (proj2 (AtLeast_counts_after_Many (Char "a") 3 4 "aab" 0)
             _ 2 Hc Hf).
Defined.

(** ** What every library-built result looks like *)

Lemma shape_Success {T} (q : Z) (v : T) (start : Z) :
  carries_value (Success q v) /\
  (PR.Success (Success q v) = false -> PR.GetPosition (Success q v) = start).
Proof.
  split.
  - split; intros _; [discriminate | reflexivity].
  - discriminate.
Qed.

Lemma shape_Fail {T} (start : Z) :
  carries_value (@Fail T start) /\
  (PR.Success (@Fail T start) = false ->
   PR.GetPosition (@Fail T start) = start).
Proof.
  split.
  - split; intros H; [discriminate | exfalso; apply H; reflexivity].
  - reflexivity.
Qed.

Ltac shape :=
  match goal with
  | |- carries_value (Success _ _) /\ _ => apply shape_Success
  | |- carries_value (Fail _) /\ _ => apply shape_Fail
  | Hp : well_behaved ?p, E : ?p ?fuel ?st ?s = Ret ?r
    |- carries_value ?r /\ _ => exact (Hp fuel st s r E)
  | Hp : well_behaved ?p, E : run ?p ?fuel ?s ?q = Ret ?r
    |- carries_value ?r /\ _ => exact (Hp fuel (mkState true q) s r E)
  end.

Lemma well_behaved_char_class test : well_behaved (char_class test).
Proof. intros fuel st s r H. unfold char_class in H. inv_ret; shape. Qed.

Lemma well_behaved_Char c : well_behaved (Char c).
Proof. intros fuel st s r H. unfold Char in H. inv_ret; shape. Qed.

Lemma well_behaved_any : well_behaved any.
Proof. intros fuel st s r H. unfold any in H. inv_ret; shape. Qed.

Lemma well_behaved_String pattern : well_behaved (String_ pattern).
Proof. intros fuel st s r H. unfold String_ in H. inv_ret; shape. Qed.

Lemma AnyOfChars_loop_shape characters s p : forall r,
  AnyOfChars_loop characters s p = Ret (Some r) ->
  exists q ch, r = Success q ch.
Proof.
  induction characters as [|ch rest IH]; simpl; intros r H.
  - discriminate.
  - inv_ret; eauto.
Qed.

Lemma well_behaved_AnyOfChars characters : well_behaved (AnyOfChars characters).
Proof.
  intros fuel st s r H. unfold AnyOfChars in H. inv_ret; try shape.
  destruct a as [r'|]; inv_ret; try shape.
  destruct (AnyOfChars_loop_shape _ _ _ _ E0) as (q & ch & ->). shape.
Qed.

Lemma well_behaved_many_class test : well_behaved (many_class test).
Proof.
  intros fuel st s r H. unfold many_class in H. cbv zeta in H.
  inv_ret; shape.
Qed.

Lemma well_behaved_integer : well_behaved integer.
Proof.
  intros fuel st s r H. unfold integer in H. cbv zeta in H.
  inv_ret; shape.
Qed.

Lemma well_behaved_Map {T R} (p : Parser T) (f : T -> Outcome R) :
  well_behaved (Map p f).
Proof. intros fuel st s r H. unfold Map in H. inv_ret; shape. Qed.

Lemma well_behaved_Discard {T} (p : Parser T) : well_behaved (Discard p).
Proof. intros fuel st s r H. unfold Discard in H. inv_ret; shape. Qed.

Lemma well_behaved_SeqFirst {T} (p : Parser T) q :
  well_behaved (SeqFirst p q).
Proof. intros fuel st s r H. unfold SeqFirst in H. inv_ret; shape. Qed.

Lemma well_behaved_SeqSecond {T} p (q : Parser T) :
  well_behaved (SeqSecond p q).
Proof. intros fuel st s r H. unfold SeqSecond in H. inv_ret; shape. Qed.

Lemma well_behaved_SeqVoid p q : well_behaved (SeqVoid p q).
Proof. intros fuel st s r H. unfold SeqVoid in H. inv_ret; shape. Qed.

Lemma well_behaved_SeqPair {T1 T2} (p : Parser T1) (q : Parser T2) :
  well_behaved (SeqPair p q).
Proof. intros fuel st s r H. unfold SeqPair in H. inv_ret; shape. Qed.

Lemma well_behaved_Or {T} (p q : Parser T) :
  well_behaved p -> well_behaved q -> well_behaved (Or p q).
Proof.
  intros Hp Hq fuel st s r H. unfold Or in H. inv_ret; shape.
Qed.

Lemma well_behaved_Try {T} (p : Parser T) d :
  well_behaved p -> well_behaved (Try p d).
Proof. intros Hp fuel st s r H. unfold Try in H. inv_ret; shape. Qed.

Lemma well_behaved_Not {T} (p : Parser T) : well_behaved (Not p).
Proof. intros fuel st s r H. unfold Not in H. inv_ret; shape. Qed.

Lemma well_behaved_Many {T} (p : Parser T) : well_behaved (Many p).
Proof.
  intros fuel st s r H.
  destruct (Many_sound p fuel s (position st) r H) as (vs & q & -> & _).
  shape.
Qed.

Lemma well_behaved_AtLeast {T} n (p : Parser T) : well_behaved (AtLeast n p).
Proof. intros fuel st s r H. unfold AtLeast in H. inv_ret; shape. Qed.

Lemma well_behaved_Between {T} lo hi (p : Parser T) :
  well_behaved (Between lo hi p).
Proof. intros fuel st s r H. unfold Between in H. inv_ret; shape. Qed.

Lemma AnyOf_loop_shape {T} (ps : list (Parser T)) fuel s q :
  (forall p, In p ps -> well_behaved p) ->
  forall r, AnyOf_loop ps fuel s q = Ret (Some r) ->
    carries_value r /\ (PR.Success r = false -> PR.GetPosition r = q).
Proof.
  induction ps as [|p ps IH]; simpl; intros Hps r H.
  - discriminate.
  - inv_ret.
    + exact (Hps p (or_introl eq_refl) fuel (mkState true q) s r E).
    + apply IH; auto.
Qed.

Lemma well_behaved_AnyOf {T} (ps : list (Parser T)) :
  (forall p, In p ps -> well_behaved p) -> well_behaved (AnyOf ps).
Proof.
  intros Hps fuel st s r H. unfold AnyOf in H. inv_ret; try shape.
  destruct a as [r'|]; inv_ret; try shape.
  eapply AnyOf_loop_shape; eauto.
Qed.

Lemma Built_well_behaved (Base : forall T : Type, Parser T -> Prop) :
  (forall T p, Base T p -> well_behaved p) ->
  forall T (p : Parser T), Built Base T p -> well_behaved p.
Proof.
  intros HBase T p HB.
  induction HB;
    unfold letter, digit, whitespace, alphanumeric, whitespaces, letters,
      digits, alphanumerics, word;
    auto using well_behaved_char_class, well_behaved_Char, well_behaved_any,
      well_behaved_String, well_behaved_AnyOfChars, well_behaved_many_class,
      well_behaved_integer, well_behaved_Map, well_behaved_Discard,
      well_behaved_SeqFirst, well_behaved_SeqSecond, well_behaved_SeqVoid,
      well_behaved_SeqPair, well_behaved_Or, well_behaved_Try,
      well_behaved_Not, well_behaved_Many, well_behaved_AtLeast,
      well_behaved_Between, well_behaved_AnyOf.
Qed.

(** X14. Failure never partially commits: a parser built from the library's
    primitives and combinators, over caller-written parsers that report
    failure at their start, reports every failure as [Fail] at the position
    it was started at, however far a sub-parser had advanced before. *)
Theorem failure_is_at_start (Base : forall T : Type, Parser T -> Prop) :
  (forall T p, Base T p -> well_behaved p) ->
  forall T (p : Parser T) (fuel : nat) (s : string) (start : Z)
         (r : ParseResult T),
    Built Base T p ->
    run p fuel s start = Ret r -> PR.Success r = false ->
    r = Fail start.
Proof.
  intros HBase T p fuel s start r HB H Hfail.
  destruct (Built_well_behaved Base HBase T p HB fuel _ s r H) as [Hv Hpos].
  specialize (Hpos Hfail). cbn [position] in Hpos.
  destruct r as [[ok q] [v|]]; unfold PR.Success, PR.GetPosition in *;
    cbn [state success position] in *; subst.
  - exfalso. destruct Hv as [_ Hv].
    assert (Hne : Some v <> None) by discriminate.
    specialize (Hv Hne). discriminate.
  - reflexivity.
Qed.

Lemma failure_is_at_start_witness :
  run (SeqPair (String_ "ab") (Char "c")) 0 "abd" 0 = Ret (Fail 0) /\
  Fail 0 = @Fail (string * ascii) 0.
Proof.
  split; [reflexivity|].
  exact (failure_is_at_start (fun _ _ => False)
           (fun T p (F : False) => match F with end)
           (string * ascii)%type (SeqPair (String_ "ab") (Char "c"))
           0%nat "abd" 0 (Fail 0)
           (B_SeqPair _ _ _ _ _ (B_String _ "ab") (B_Char _ "c"))
           eq_refl eq_refl).
Defined.

(** X15. A value is there exactly when the parse succeeded: for a parser
    built from the library's primitives and combinators, over caller-written
    parsers that keep this rule, reading the value after checking the
    success flag never throws [std::bad_optional_access]. *)
Theorem success_carries_a_value (Base : forall T : Type, Parser T -> Prop) :
  (forall T p, Base T p -> well_behaved p) ->
  forall T (p : Parser T) (fuel : nat) (s : string) (start : Z)
         (r : ParseResult T),
    Built Base T p ->
    run p fuel s start = Ret r -> PR.Success r = true ->
    exists v, PR.GetResult r = Ret v.
Proof.
  intros HBase T p fuel s start r HB H Hok.
  destruct (Built_well_behaved Base HBase T p HB fuel _ s r H) as [Hv _].
  apply Hv in Hok. unfold PR.GetResult.
  destruct (result r) as [v|]; [eauto | congruence].
Qed.

Lemma success_carries_a_value_witness :
  run (Or (Char "x") (Try (Char "a") "?"%char)) 0 "b" 0
    = Ret (Success 0 "?"%char) /\
  exists v, PR.GetResult (Success 0 "?"%char) = Ret v.
Proof.
  split; [reflexivity|].
  exact (success_carries_a_value (fun _ _ => False)
           (fun T p (F : False) => match F with end)
           ascii (Or (Char "x") (Try (Char "a") "?"%char))
           0%nat "b" 0 (Success 0 "?"%char)
           (B_Or _ _ _ _ (B_Char _ "x") (B_Try _ _ _ _ (B_Char _ "a")))
           eq_refl eq_refl).
Defined.

(** ** Laws of the combinators *)

(** X16. Mapping twice is mapping once with the composed function: for every
    parser, every pair of callables (throwing or not), every state and every
    input, [(P | f) | g] and [P | (g after f)] give the same outcome. *)
Theorem Map_Map {T R U} (P : Parser T) (f : T -> Outcome R)
    (g : R -> Outcome U) (fuel : nat) (st : StringState) (s : string) :
  Map (Map P f) g fuel st s
  = Map P (fun v => y <- f v ;; g y) fuel st s.
Proof.
  unfold Map. destruct (P fuel st s) as [r| | |]; cbn [bind]; try reflexivity.
  destruct (PR.Success r); cbn [bind]; [|reflexivity].
  destruct (PR.GetResult r) as [v| | |]; cbn [bind]; try reflexivity.
  destruct (f v) as [y| | |]; reflexivity.
Qed.

Lemma well_behaved_result {T} (r : ParseResult T) (start : Z) :
  carries_value r ->
  (PR.Success r = false -> PR.GetPosition r = start) ->
  (PR.Success r = true /\
   exists v, PR.GetResult r = Ret v /\ r = Success (PR.GetPosition r) v) \/
  (PR.Success r = false /\ r = Fail start).
Proof.
  intros [Hv1 Hv2] Hpos.
  destruct r as [[ok q] [v|]]; unfold PR.Success, PR.GetPosition,
    PR.GetResult in *; cbn [state success position result] in *.
  - assert (ok = true) by (apply Hv2; discriminate). subst.
    left. split; [reflexivity|]. exists v. split; reflexivity.
  - destruct ok.
    + exfalso. apply (Hv1 eq_refl). reflexivity.
    + right. split; [reflexivity|]. rewrite (Hpos eq_refl). reflexivity.
Qed.

(** X17. On a parser built from the library's primitives and combinators,
    mapping with the identity changes nothing, and discarding the value is
    mapping it to [Void]: the rebuilt result equals the original one because
    every such result is a [Success] with a value or a [Fail] at the
    start. *)
Theorem Map_identity_and_Discard (Base : forall T : Type, Parser T -> Prop) :
  (forall T p, Base T p -> well_behaved p) ->
  forall T (p : Parser T) (fuel : nat) (s : string) (start : Z),
    Built Base T p ->
    run (Map p (fun v => Ret v)) fuel s start = run p fuel s start /\
    run (Discard p) fuel s start
      = run (Map p (fun _ => Ret void)) fuel s start.
Proof.
  intros HBase T p fuel s start HB.
  pose proof (Built_well_behaved Base HBase T p HB fuel
                (mkState true start) s) as Hwb.
  unfold run, Map, Discard. cbn [position].
  destruct (p fuel (mkState true start) s) as [r| | |]; cbn [bind];
    try (split; reflexivity).
  destruct (Hwb r eq_refl) as [Hv Hpos]. cbn [position] in Hpos.
  destruct (well_behaved_result r start Hv Hpos)
    as [(Hok & v & Hget & Hr) | (Hfail & Hr)].
  - rewrite Hok, Hget. cbn [bind]. rewrite <- Hr. split; reflexivity.
  - rewrite Hfail. rewrite Hr. split; reflexivity.
Qed.

Lemma Map_identity_and_Discard_witness :
  run (Map (Many letter) (fun v => Ret v)) 3 "ab" 0
    = run (Many letter) 3 "ab" 0 /\
  run (Discard (Many letter)) 3 "ab" 0
    = run (Map (Many letter) (fun _ => Ret void)) 3 "ab" 0.
Proof.
  exact (Map_identity_and_Discard (fun _ _ => False)
           (fun T p (F : False) => match F with end)
           (list ascii) (Many letter) 3%nat "ab" 0
           (B_Many _ _ _ (B_letter _))).
Defined.

(** X18. Sequencing for consumption only is associative: [(a >> b) >> c]
    and [a >> (b >> c)] on [Parser<Void>] give the same outcome on every
    state and input, including the position reported when any of the three
    fails. *)
Theorem SeqVoid_assoc (a b c : Parser Void) (fuel : nat) (st : StringState)
    (s : string) :
  SeqVoid (SeqVoid a b) c fuel st s = SeqVoid a (SeqVoid b c) fuel st s.
Proof.
  unfold SeqVoid, run. cbn [success position negb].
  destruct (success st); cbn [negb]; [|reflexivity].
  destruct (a fuel (mkState true (position st)) s) as [ra| | |];
    cbn [bind]; try reflexivity.
  destruct (PR.Success ra); cbn [negb bind]; [|reflexivity].
  destruct (b fuel (mkState true (PR.GetPosition ra)) s) as [rb| | |];
    cbn [bind]; try reflexivity.
  destruct (PR.Success rb); cbn [negb bind];
    [|change (PR.Success (@Fail Void (PR.GetPosition ra))) with false;
      reflexivity].
  change (PR.Success (Success (PR.GetPosition rb) void)) with true.
  cbn [negb]. rewrite !Success_position.
  destruct (c fuel (mkState true (PR.GetPosition rb)) s) as [rc| | |];
    cbn [bind]; try reflexivity.
  destruct (PR.Success rc); cbn [negb bind].
  - change (PR.Success (Success (PR.GetPosition rc) void)) with true.
    reflexivity.
  - change (PR.Success (@Fail Void (PR.GetPosition ra))) with false.
    reflexivity.
Qed.

(** X19. Alternation is associative: [(a || b) || c] and [a || (b || c)]
    give the same outcome on every state and input; the first success in
    order is returned unchanged and a failure of all three is a failure at
    the start. *)
Theorem Or_assoc {T} (a b c : Parser T) (fuel : nat) (st : StringState)
    (s : string) :
  Or (Or a b) c fuel st s = Or a (Or b c) fuel st s.
Proof.
  unfold Or, run. cbn [position].
  destruct (a fuel (mkState true (position st)) s) as [ra| | |];
    cbn [bind]; try reflexivity.
  destruct (PR.Success ra) eqn:Ha; cbn [bind]; [rewrite Ha; reflexivity|].
  destruct (b fuel (mkState true (position st)) s) as [rb| | |];
    cbn [bind]; try reflexivity.
  destruct (PR.Success rb) eqn:Hb; cbn [bind]; rewrite ?Hb;
    [reflexivity|].
  change (PR.Success (@Fail T (position st))) with false. cbv iota.
  destruct (c fuel (mkState true (position st)) s) as [rc| | |];
    cbn [bind]; try reflexivity.
  destruct (PR.Success rc) eqn:Hc; cbn [bind]; rewrite ?Hc; reflexivity.
Qed.

(** X20. [Not] applied twice is a test that consumes one character: where
    [P] succeeds, however much it consumed and whatever it returned,
    [Not(Not(P))] succeeds exactly one position further, and where [P] fails
    it fails at the start. *)
Theorem Not_Not {T} (P : Parser T) (fuel : nat) (s : string) (p : Z)
    (r : ParseResult T) :
  INT_MIN <= p < INT_MAX ->
  run P fuel s p = Ret r ->
  run (Not (Not P)) fuel s p
    = Ret (if PR.Success r then Success (p + 1) void else Fail p).
Proof.
  intros Hp HP. unfold run in *. unfold Not at 1. cbn [position].
  unfold run. unfold Not. cbn [position]. unfold run. rewrite HP.
  cbn [bind]. destruct (PR.Success r); cbn [bind].
  - change (PR.Success (@Fail Void p)) with false. cbv iota.
    rewrite int_add_in_range
      by (unfold in_range, INT_MIN, INT_MAX in *; lia).
    reflexivity.
  - rewrite int_add_in_range
      by (unfold in_range, INT_MIN, INT_MAX in *; lia).
    reflexivity.
Qed.

Lemma Not_Not_witness :
  run (Not (Not (String_ "abc"))) 0 "abcd" 0 = Ret (Success 1 void) /\
  run (Not (Not (String_ "abd"))) 0 "abcd" 0 = Ret (Fail 0).
Proof.
  split.
  - apply (Not_Not (String_ "abc") 0 "abcd" 0 (Success 3 "abc"));
      [vm_compute; split; [discriminate | reflexivity] | reflexivity].
  - apply (Not_Not (String_ "abd") 0 "abcd" 0 (Fail 0));
      [vm_compute; split; [discriminate | reflexivity] | reflexivity].
Defined.

Lemma run_shape {T} (p : Parser T) fuel st s r :
  well_behaved p -> p fuel st s = Ret r ->
  (exists q v, r = Success q v) \/ r = Fail (position st).
Proof.
  intros Hp H. destruct (Hp fuel st s r H) as [Hv Hpos].
  destruct (well_behaved_result r (position st) Hv Hpos)
    as [(_ & v & _ & Hr) | (_ & Hr)]; eauto.
Qed.

(** X21. The four sequence operators are one operator: on parsers built
    from the library's primitives and combinators, keeping only the first
    value, only the second, or neither is the pair-returning sequence
    followed by a projection or by discarding. *)
Theorem sequence_variants_agree (Base : forall T : Type, Parser T -> Prop) :
  (forall T p, Base T p -> well_behaved p) ->
  forall T1 T2 (a : Parser T1) (b : Parser T2) (fuel : nat) (s : string)
         (start : Z),
    Built Base T1 a -> Built Base T2 b ->
    run (SeqFirst a (Discard b)) fuel s start
      = run (Map (SeqPair a b) (fun pair => Ret (fst pair))) fuel s start /\
    run (SeqSecond (Discard a) b) fuel s start
      = run (Map (SeqPair a b) (fun pair => Ret (snd pair))) fuel s start /\
    run (SeqVoid (Discard a) (Discard b)) fuel s start
      = run (Discard (SeqPair a b)) fuel s start.
Proof.
  intros HBase T1 T2 a b fuel s start Ha Hb.
  pose proof (Built_well_behaved Base HBase T1 a Ha) as Wa.
  pose proof (Built_well_behaved Base HBase T2 b Hb) as Wb.
  unfold run, SeqFirst, SeqSecond, SeqVoid, Map, Discard, SeqPair, run.
  cbn [success position negb].
  destruct (a fuel (mkState true start) s) as [ra| | |] eqn:Ea;
    try (repeat split; reflexivity).
  destruct (run_shape a _ _ _ ra Wa Ea) as [(q & va & ->) | ->];
    [|repeat split; reflexivity].
  cbn [bind PR.Success PR.GetPosition PR.GetResult Success state success
       position result negb].
  destruct (b fuel (mkState true q) s) as [rb| | |] eqn:Eb;
    try (repeat split; reflexivity).
  destruct (run_shape b _ _ _ rb Wb Eb) as [(q' & vb & ->) | ->];
    repeat split; reflexivity.
Qed.

Lemma sequence_variants_agree_witness :
  run (SeqFirst letter (Discard digit)) 0 "a1" 0
    = run (Map (SeqPair letter digit) (fun pair => Ret (fst pair))) 0 "a1" 0 /\
  run (SeqSecond (Discard letter) digit) 0 "a1" 0
    = run (Map (SeqPair letter digit) (fun pair => Ret (snd pair))) 0 "a1" 0 /\
  run (SeqVoid (Discard letter) (Discard digit)) 0 "a1" 0
    = run (Discard (SeqPair letter digit)) 0 "a1" 0.
Proof.
  exact (sequence_variants_agree (fun _ _ => False)
           (fun T p (F : False) => match F with end)
           ascii ascii letter digit 0%nat "a1" 0
           (B_letter _) (B_digit _)).
Defined.

(** ** Many of a class parser and the scanning parser of the class *)

Lemma collects_char_class test fuel s : forall n p,
  n = Z.to_nat (size s - p) ->
  0 <= p <= size s -> size s < INT_MAX ->
  collects (char_class test) fuel s p
    (list_ascii_of_string (take_while test (string_drop (Z.to_nat p) s)))
    (p + size (take_while test (string_drop (Z.to_nat p) s))).
Proof.
  induction n as [|n IH]; intros p Hn Hp Hlen.
  - assert (p = size s) by lia. subst p.
    rewrite string_drop_all by (unfold size; lia).
    cbn [take_while list_ascii_of_string]. change (size "") with 0.
    rewrite Z.add_0_r. apply collects_end.
    apply to_size_t_small. pose proof (size_nonneg s).
    unfold INT_MAX, SIZE_MODULUS in *. lia.
  - assert (Hlt : p < size s) by lia.
    assert (Hnot : to_size_t p <> size s).
    { rewrite to_size_t_small
        by (unfold INT_MAX, SIZE_MODULUS in *; lia). lia. }
    destruct (string_drop_get (Z.to_nat p) s) as (c & _ & Hdrop);
      [unfold size in *; lia|].
    pose proof (char_class_inside test fuel s p Hp Hlen) as Hrun.
    rewrite (peek_inside _ _ _ _ Hdrop) in Hrun.
    rewrite Hdrop. cbn [take_while]. destruct (test c) eqn:Htest.
    + cbn [list_ascii_of_string]. rewrite size_String.
      apply (collects_step _ _ _ p (Success (p + 1) c) c);
        [exact Hnot | exact Hrun | reflexivity | reflexivity |].
      rewrite Success_position.
      replace (p + (1 + size (take_while test (string_drop (S (Z.to_nat p)) s))))
        with (p + 1 + size (take_while test (string_drop (S (Z.to_nat p)) s)))
        by lia.
      replace (S (Z.to_nat p)) with (Z.to_nat (p + 1)) by lia.
      apply IH; lia.
    + cbn [list_ascii_of_string]. change (size "") with 0.
      rewrite Z.add_0_r.
      apply (collects_fail _ _ _ p (Fail p));
        [exact Hnot | exact Hrun | reflexivity].
Qed.

Lemma list_ascii_length u :
  List.length (list_ascii_of_string u) = String.length u.
Proof. induction u as [|c u IH]; simpl; [reflexivity | rewrite IH; reflexivity]. Qed.

Lemma Many_char_class test fuel s p :
  test zero = false ->
  0 <= p <= size s -> size s < INT_MAX -> (String.length s < fuel)%nat ->
  run (Map (Many (char_class test))
         (fun chars => Ret (string_of_list_ascii chars))) fuel s p
  = run (many_class test) fuel s p.
Proof.
  intros Hz Hp Hlen Hfuel.
  set (tw := take_while test (string_drop (Z.to_nat p) s)).
  assert (HM : run (Many (char_class test)) fuel s p
               = Ret (Success (p + size tw) (list_ascii_of_string tw))).
  { apply Many_collects.
    - apply (collects_char_class test fuel s _ p eq_refl Hp Hlen).
    - rewrite list_ascii_length.
      pose proof (take_while_length test (string_drop (Z.to_nat p) s)) as H.
      rewrite string_drop_length in H. fold tw in H. lia. }
  unfold run at 1, Map. cbn [position].
  change (Many (char_class test) fuel (mkState true p) s)
    with (run (Many (char_class test)) fuel s p).
  rewrite HM. cbn [bind PR.Success PR.GetPosition PR.GetResult Success state
                   success position result].
  rewrite string_of_list_ascii_of_string.
  unfold run. rewrite many_class_spec; try assumption; try lia.
  reflexivity.
Qed.

(** X22. Inside the input, each scanning parser is [Many] of the
    single-character parser of its class with the characters joined into a
    string: [letters] and [Many(letter)], [digits] and [Many(digit)],
    [whitespaces] and [Many(whitespace)], [alphanumerics] and
    [Many(alphanumeric)] consume the same characters and stop at the same
    position. *)
Theorem scanners_are_Many_of_class (fuel : nat) (s : string) (p : Z) :
  0 <= p <= size s -> size s < INT_MAX -> (String.length s < fuel)%nat ->
  let join (chars : list ascii) := Ret (string_of_list_ascii chars) in
  run (Map (Many letter) join) fuel s p = run letters fuel s p /\
  run (Map (Many digit) join) fuel s p = run digits fuel s p /\
  run (Map (Many whitespace) join) fuel s p = run whitespaces fuel s p /\
  run (Map (Many alphanumeric) join) fuel s p = run alphanumerics fuel s p.
Proof.
  intros Hp Hlen Hfuel join.
  unfold letter, digit, whitespace, alphanumeric, letters, digits,
    whitespaces, alphanumerics, join.
  repeat split; apply Many_char_class; assumption || reflexivity.
Qed.

Lemma scanners_are_Many_of_class_witness :
  let join (chars : list ascii) := Ret (string_of_list_ascii chars) in
  run (Map (Many letter) join) 5 "ab 1" 0 = run letters 5 "ab 1" 0 /\
  run (Map (Many digit) join) 5 "ab 1" 0 = run digits 5 "ab 1" 0 /\
  run (Map (Many whitespace) join) 5 "ab 1" 0 = run whitespaces 5 "ab 1" 0 /\
  run (Map (Many alphanumeric) join) 5 "ab 1" 0
    = run alphanumerics 5 "ab 1" 0.
Proof.
  exact (scanners_are_Many_of_class 5 "ab 1" 0
           ltac:(vm_compute; split; discriminate)
           ltac:(vm_compute; reflexivity) ltac:(simpl; lia)).
Defined.

(** ** The bounds checks of any and AnyOf *)




(** * Inputs longer than INT_MAX *)

Lemma size_replicate n c : size (replicate n c) = Z.of_nat n.
Proof.
  unfold size. f_equal.
  induction n as [|n IH]; cbn [replicate String.length]; congruence.
Qed.

Lemma get_replicate c : forall m i,
  (i < m)%nat -> String.get i (replicate m c) = Some c.
Proof.
  induction m as [|m IH]; intros i Hi; [lia|].
  destruct i as [|i]; cbn [replicate String.get]; [reflexivity|].
  apply IH. lia.
Qed.

Lemma String_loop_replicate c m :
  Z.of_nat m < SIZE_MODULUS ->
  forall k i, (i + k <= m)%nat ->
    String_loop (replicate k c) (Z.of_nat i) (replicate m c) 0 = Ret true.
Proof.
  intros Hm. induction k as [|k IH]; intros i Hik.
  - reflexivity.
  - cbn [replicate String_loop]. change (to_size_t 0) with 0.
    rewrite Z.add_0_l. rewrite Z.mod_small by lia. cbv zeta.
    unfold index. rewrite size_replicate.
    destruct (Z.ltb_spec (Z.of_nat i) (Z.of_nat m)) as [_|]; [|lia].
    rewrite Nat2Z.id, get_replicate by lia. cbn [bind].
    rewrite Ascii.eqb_refl. cbn [negb orb].
    destruct (Z.leb_spec (Z.of_nat m) (Z.of_nat i)) as [|_]; [lia|].
    replace (Z.of_nat i + 1) with (Z.of_nat (S i)) by lia.
    apply IH. lia.
Qed.

Lemma wrapped_length : int_add 0 (to_int 2147483648) = Ret INT_MIN.
Proof. reflexivity. Qed.

(** A pattern of [2^31] characters matched against itself: the length cast
    to [int] is [INT_MIN], and that is the position of the success. *)
Lemma String_wraps n c fuel :
  Z.of_nat n = 2147483648 ->
  run (String_ (replicate n c)) fuel (replicate n c) 0
  = Ret (Success INT_MIN (replicate n c)).
Proof.
  intros Hn. unfold run, String_. cbn [position].
  change 0 with (Z.of_nat 0) at 1.
  rewrite (String_loop_replicate c n) by (unfold SIZE_MODULUS; lia).
  cbn [bind]. rewrite size_replicate, Hn, wrapped_length. reflexivity.
Qed.

(** C9, as stated, fails: on an input of [2^31] characters, [String] of the
    same [2^31] characters, started at 0, succeeds at position [INT_MIN],
    which is before its start; no step of that run is undefined. *)
Lemma String_wraps_counterexample :
  run (String_ long_pattern) 0 long_pattern 0
    = Ret (Success INT_MIN long_pattern) /\
  PR.GetPosition (Success INT_MIN long_pattern) < 0.
Proof.
  split.
  - unfold long_pattern. apply String_wraps. apply Z2Nat.id. discriminate.
  - rewrite Success_position. reflexivity.
Qed.

(** * Parsers that return *)

Section Returning.
Variable s : string.
Hypothesis Hlen : size s <= INT_MAX.

Ltac ends_failed :=
  eexists; split;
  [reflexivity | let Hx := fresh in intros Hx; discriminate Hx].

Ltac ends_succeeded :=
  eexists; split;
  [reflexivity
  | intros _; rewrite ?Success_position;
    split; [eexists; reflexivity | try lia]].

Lemma inside_next (p : Z) :
  0 <= p < size s -> int_add p 1 = Ret (p + 1).
Proof.
  intros Hp. apply int_add_in_range.
  unfold in_range, INT_MIN, INT_MAX in *. lia.
Qed.

Lemma peek_before_end (p : Z) :
  0 <= p <= size s -> peek s (Z.to_nat p) <> zero -> p < size s.
Proof.
  intros Hp Hc. destruct (Z.eq_dec p (size s)) as [-> | Hne]; [|lia].
  exfalso. apply Hc. apply peek_end. unfold size. lia.
Qed.

Lemma returns_char_class test :
  test zero = false -> returns_inside (char_class test) s.
Proof.
  intros Hz. exists 0%nat. intros fuel st _ Hp. unfold char_class.
  rewrite char_at_peek by assumption. cbn [bind].
  destruct (test (peek s (Z.to_nat (position st)))) eqn:Ht;
    [|ends_failed].
  assert (Hin : position st < size s).
  { apply peek_before_end; [assumption|]. intros Hc. congruence. }
  rewrite inside_next by lia. ends_succeeded.
Qed.

Lemma returns_Char c : c <> zero -> returns_inside (Char c) s.
Proof.
  intros Hc. exists 0%nat. intros fuel st _ Hp. unfold Char.
  rewrite char_at_peek by assumption. cbn [bind].
  destruct (Ascii.eqb (peek s (Z.to_nat (position st))) c) eqn:He;
    [|ends_failed].
  apply Ascii.eqb_eq in He.
  assert (Hin : position st < size s).
  { apply peek_before_end; [assumption | congruence]. }
  rewrite inside_next by lia. ends_succeeded.
Qed.

Lemma returns_any : returns_inside any s.
Proof.
  exists 0%nat. intros fuel st _ Hp. unfold any.
  pose proof (size_nonneg s). rewrite to_int_small by lia.
  destruct (Z.ltb_spec (position st) (size s)) as [Hlt|]; [|ends_failed].
  rewrite char_at_peek by assumption. cbn [bind].
  rewrite inside_next by lia. ends_succeeded.
Qed.

Lemma returns_AnyOfChars characters : returns_inside (AnyOfChars characters) s.
Proof.
  exists 0%nat. intros fuel st _ Hp. unfold AnyOfChars.
  pose proof (size_nonneg s). rewrite to_int_small by lia.
  destruct (Z.ltb_spec (position st) (size s)) as [Hlt|]; [|ends_failed].
  rewrite AnyOfChars_loop_spec by (assumption || lia). cbn [bind].
  destruct (mem_char _ characters); [ends_succeeded | ends_failed].
Qed.

Lemma returns_String pattern : returns_inside (String_ pattern) s.
Proof.
  exists 0%nat. intros fuel st _ Hp. unfold String_.
  rewrite String_loop_spec by (assumption || lia). cbn [bind].
  rewrite Z.add_0_r.
  destruct (starts_with pattern (string_drop (Z.to_nat (position st)) s))
    eqn:E; [|ends_failed].
  apply starts_with_length in E. rewrite string_drop_length in E.
  assert (Hsz : 0 <= size pattern <= size s - position st)
    by (unfold size in *; lia).
  rewrite to_int_small by lia.
  rewrite int_add_in_range
    by (unfold in_range, INT_MIN, INT_MAX in *; lia).
  ends_succeeded.
Qed.

Lemma returns_many_class test :
  test zero = false -> returns_inside (many_class test) s.
Proof.
  intros Hz. exists (S (String.length s)). intros fuel st Hf Hp.
  rewrite many_class_spec by (assumption || lia).
  pose proof (take_while_length test
                (string_drop (Z.to_nat (position st)) s)) as Hle.
  rewrite string_drop_length in Hle.
  ends_succeeded. unfold size in *. lia.
Qed.

Lemma returns_Map {T R} (p : Parser T) (f : T -> R) :
  returns_inside p s -> returns_inside (Map p (fun v => Ret (f v))) s.
Proof.
  intros (N & H). exists N. intros fuel st Hf Hp.
  destruct (H fuel st Hf Hp) as (r & E & Hr). unfold Map. rewrite E.
  cbn [bind]. destruct (PR.Success r); [|ends_failed].
  destruct (Hr eq_refl) as ((v & Hv) & Hpos).
  unfold PR.GetResult. rewrite Hv. cbn [bind]. ends_succeeded.
Qed.

Lemma returns_Discard {T} (p : Parser T) :
  returns_inside p s -> returns_inside (Discard p) s.
Proof.
  intros (N & H). exists N. intros fuel st Hf Hp.
  destruct (H fuel st Hf Hp) as (r & E & Hr). unfold Discard. rewrite E.
  cbn [bind]. destruct (PR.Success r); [|ends_failed].
  destruct (Hr eq_refl) as (_ & Hpos). ends_succeeded.
Qed.

(** The two steps every sequence operator takes before it builds its
    result. *)
Lemma sequence_steps {T1 T2} (a : Parser T1) (b : Parser T2) Na Nb fuel q :
  (forall fuel st, (Na <= fuel)%nat -> 0 <= position st <= size s ->
     exists r, a fuel st s = Ret r /\
       (PR.Success r = true ->
        (exists v, result r = Some v) /\
        position st <= PR.GetPosition r <= size s)) ->
  (forall fuel st, (Nb <= fuel)%nat -> 0 <= position st <= size s ->
     exists r, b fuel st s = Ret r /\
       (PR.Success r = true ->
        (exists v, result r = Some v) /\
        position st <= PR.GetPosition r <= size s)) ->
  (Nat.max Na Nb <= fuel)%nat -> 0 <= q <= size s ->
  exists ra, run a fuel s q = Ret ra /\
    (PR.Success ra = false \/
     exists va, PR.Success ra = true /\ result ra = Some va /\
       exists rb, run b fuel s (PR.GetPosition ra) = Ret rb /\
         (PR.Success rb = false \/
          exists vb, PR.Success rb = true /\ result rb = Some vb /\
                     q <= PR.GetPosition rb <= size s)).
Proof.
  intros Ha Hb Hf Hq.
  destruct (Ha fuel (mkState true q) ltac:(lia) Hq) as (ra & Ea & Hra).
  exists ra. split; [exact Ea|].
  destruct (PR.Success ra) eqn:Sa; [right | left; reflexivity].
  destruct (Hra eq_refl) as ((va & Hva) & Hpa). cbn [position] in Hpa.
  exists va. split; [reflexivity | split; [exact Hva|]].
  destruct (Hb fuel (mkState true (PR.GetPosition ra)) ltac:(lia)
              ltac:(cbn [position]; lia)) as (rb & Eb & Hrb).
  exists rb. split; [exact Eb|].
  destruct (PR.Success rb) eqn:Sb; [right | left; reflexivity].
  destruct (Hrb eq_refl) as ((vb & Hvb) & Hpb). cbn [position] in Hpb.
  exists vb. split; [reflexivity | split; [exact Hvb | lia]].
Qed.

Ltac sequence_cases Ha Hb fuel st Hf Hp :=
  destruct (success st); cbn [negb]; [|ends_failed];
  destruct (sequence_steps _ _ _ _ fuel (position st) Ha Hb Hf Hp)
    as (ra & Ea & [Sa | (va & Sa & Hva & rb & Eb
                          & [Sb | (vb & Sb & Hvb & Hpos)])]);
  rewrite Ea; cbn [bind]; rewrite Sa; cbn [negb]; [ends_failed | |];
  rewrite Eb; cbn [bind]; rewrite Sb; cbn [negb]; [ends_failed|];
  unfold PR.GetResult; rewrite ?Hva, ?Hvb; cbn [bind]; ends_succeeded.

Lemma returns_SeqFirst {T} (a : Parser T) b :
  returns_inside a s -> returns_inside b s -> returns_inside (SeqFirst a b) s.
Proof.
  intros (Na & Ha) (Nb & Hb). exists (Nat.max Na Nb).
  intros fuel st Hf Hp. unfold SeqFirst. sequence_cases Ha Hb fuel st Hf Hp.
Qed.

Lemma returns_SeqSecond {T} a (b : Parser T) :
  returns_inside a s -> returns_inside b s -> returns_inside (SeqSecond a b) s.
Proof.
  intros (Na & Ha) (Nb & Hb). exists (Nat.max Na Nb).
  intros fuel st Hf Hp. unfold SeqSecond. sequence_cases Ha Hb fuel st Hf Hp.
Qed.

Lemma returns_SeqVoid a b :
  returns_inside a s -> returns_inside b s -> returns_inside (SeqVoid a b) s.
Proof.
  intros (Na & Ha) (Nb & Hb). exists (Nat.max Na Nb).
  intros fuel st Hf Hp. unfold SeqVoid. sequence_cases Ha Hb fuel st Hf Hp.
Qed.

Lemma returns_SeqPair {T1 T2} (a : Parser T1) (b : Parser T2) :
  returns_inside a s -> returns_inside b s -> returns_inside (SeqPair a b) s.
Proof.
  intros (Na & Ha) (Nb & Hb). exists (Nat.max Na Nb).
  intros fuel st Hf Hp. unfold SeqPair. sequence_cases Ha Hb fuel st Hf Hp.
Qed.

Lemma returns_word : returns_inside word s.
Proof.
  apply (returns_Map _ snd), returns_SeqPair;
    apply returns_many_class; reflexivity.
Qed.

Lemma returns_Or {T} (a b : Parser T) :
  returns_inside a s -> returns_inside b s -> returns_inside (Or a b) s.
Proof.
  intros (Na & Ha) (Nb & Hb). exists (Nat.max Na Nb).
  intros fuel st Hf Hp. unfold Or, run.
  destruct (Ha fuel (mkState true (position st)) ltac:(lia) Hp)
    as (ra & Ea & Hra).
  rewrite Ea. cbn [bind]. destruct (PR.Success ra) eqn:Sa.
  - exists ra. split; [reflexivity|]. intros _. exact (Hra eq_refl).
  - destruct (Hb fuel (mkState true (position st)) ltac:(lia) Hp)
      as (rb & Eb & Hrb).
    rewrite Eb. cbn [bind]. destruct (PR.Success rb) eqn:Sb;
      [|ends_failed].
    exists rb. split; [reflexivity|]. intros _. exact (Hrb eq_refl).
Qed.

Lemma returns_Try {T} (p : Parser T) d :
  returns_inside p s -> returns_inside (Try p d) s.
Proof.
  intros (N & H). exists N. intros fuel st Hf Hp. unfold Try, run.
  destruct (H fuel (mkState true (position st)) Hf Hp) as (r & E & Hr).
  rewrite E. cbn [bind]. destruct (PR.Success r) eqn:Sr.
  - exists r. split; [reflexivity|]. intros _. exact (Hr eq_refl).
  - ends_succeeded.
Qed.

(** Each iteration of [Many] over an advancing parser that stays inside
    the input moves the position towards the end of the input, so the
    distance to the end bounds the iterations. *)
Lemma Many_loop_returns {T} (p : Parser T) N fuel :
  (forall fuel st, (N <= fuel)%nat -> 0 <= position st <= size s ->
     exists r, p fuel st s = Ret r /\
       (PR.Success r = true ->
        (exists v, result r = Some v) /\
        position st <= PR.GetPosition r <= size s)) ->
  advancing p -> (N <= fuel)%nat ->
  forall gas q acc,
    0 <= q <= size s -> size s - q < Z.of_nat gas ->
    exists q' vs,
      Many_loop p fuel gas s q acc = Ret (Success q' vs) /\
      q <= q' <= size s.
Proof.
  intros H Adv Hf. induction gas as [|gas IH]; intros q acc Hq Hgas; [lia|].
  cbn [Many_loop].
  destruct (to_size_t q =? size s);
    [exists q, acc; split; [reflexivity | lia]|].
  destruct (H fuel (mkState true q) Hf Hq) as (r & E & Hr).
  unfold run. rewrite E. cbn [bind].
  destruct (PR.Success r) eqn:Sr;
    [|exists q, acc; split; [reflexivity | lia]].
  destruct (Hr eq_refl) as ((v & Hv) & Hpos). cbn [position] in Hpos.
  pose proof (Adv fuel (mkState true q) s r E Sr) as Hlt.
  cbn [position] in Hlt.
  unfold PR.GetResult. rewrite Hv. cbn [bind].
  destruct (IH (PR.GetPosition r) (acc ++ [v])%list ltac:(lia) ltac:(lia))
    as (q' & vs & Hloop & Hq').
  exists q', vs. split; [exact Hloop | lia].
Qed.

Lemma Many_returns {T} (p : Parser T) :
  returns_inside p s -> advancing p ->
  exists N : nat,
    forall fuel q, (N <= fuel)%nat -> 0 <= q <= size s ->
      exists q' vs,
        run (Many p) fuel s q = Ret (Success q' vs) /\ q <= q' <= size s.
Proof.
  intros (N & H) Adv. exists (Nat.max N (S (String.length s))).
  intros fuel q Hf Hq. unfold run, Many. cbn [position].
  apply (Many_loop_returns p N fuel H Adv); [lia | exact Hq |].
  unfold size in *. lia.
Qed.

Lemma returns_Many {T} (p : Parser T) :
  returns_inside p s -> advancing p -> returns_inside (Many p) s.
Proof.
  intros Hp Adv. destruct (Many_returns p Hp Adv) as (N & H).
  exists N. intros fuel st Hf Hq.
  destruct (H fuel (position st) Hf Hq) as (q' & vs & E & Hq').
  unfold run in E. unfold Many in *. cbn [position] in E. rewrite E.
  ends_succeeded.
Qed.

Lemma returns_AtLeast {T} n (p : Parser T) :
  returns_inside p s -> advancing p -> returns_inside (AtLeast n p) s.
Proof.
  intros Hp Adv. destruct (Many_returns p Hp Adv) as (N & H).
  exists N. intros fuel st Hf Hq. unfold AtLeast.
  destruct (H fuel (position st) Hf Hq) as (q' & vs & E & Hq').
  rewrite E. cbn [bind PR.GetResult result Success].
  destruct (n <=? List.length vs)%nat; [ends_succeeded | ends_failed].
Qed.

Lemma returns_Between {T} lo hi (p : Parser T) :
  returns_inside p s -> advancing p -> returns_inside (Between lo hi p) s.
Proof.
  intros Hp Adv. destruct (Many_returns p Hp Adv) as (N & H).
  exists N. intros fuel st Hf Hq. unfold Between.
  destruct (H fuel (position st) Hf Hq) as (q' & vs & E & Hq').
  rewrite E. cbn [bind PR.GetResult result Success].
  destruct ((lo <=? List.length vs)%nat && (List.length vs <=? hi)%nat);
    [ends_succeeded | ends_failed].
Qed.

Lemma returns_all {T} (ps : list (Parser T)) :
  (forall p, In p ps -> returns_inside p s) ->
  exists N : nat, forall p, In p ps ->
    forall fuel st, (N <= fuel)%nat -> 0 <= position st <= size s ->
      exists r, p fuel st s = Ret r /\
        (PR.Success r = true ->
         (exists v, result r = Some v) /\
         position st <= PR.GetPosition r <= size s).
Proof.
  induction ps as [|p ps IH]; intros Hps.
  - exists 0%nat. intros p [].
  - destruct IH as (N & Hall); [intros; apply Hps; right; assumption|].
    destruct (Hps p (or_introl eq_refl)) as (Np & Hp).
    exists (Nat.max N Np). intros p' [<- | Hin] fuel st Hf Hq.
    + apply Hp; [lia | exact Hq].
    + apply (Hall p' Hin); [lia | exact Hq].
Qed.

Lemma AnyOf_loop_returns {T} (ps : list (Parser T)) N fuel q :
  (forall p, In p ps ->
     forall fuel st, (N <= fuel)%nat -> 0 <= position st <= size s ->
       exists r, p fuel st s = Ret r /\
         (PR.Success r = true ->
          (exists v, result r = Some v) /\
          position st <= PR.GetPosition r <= size s)) ->
  (N <= fuel)%nat -> 0 <= q <= size s ->
  AnyOf_loop ps fuel s q = Ret None \/
  exists r v, AnyOf_loop ps fuel s q = Ret (Some r) /\
              PR.Success r = true /\ result r = Some v /\
              q <= PR.GetPosition r <= size s.
Proof.
  intros Hps Hf Hq. induction ps as [|p ps IH]; cbn [AnyOf_loop].
  - left. reflexivity.
  - destruct (Hps p (or_introl eq_refl) fuel (mkState true q) Hf Hq)
      as (r & E & Hr).
    unfold run. rewrite E. cbn [bind]. destruct (PR.Success r) eqn:Sr.
    + right. destruct (Hr eq_refl) as ((v & Hv) & Hpos).
      exists r, v. auto.
    + apply IH. intros p' Hin. apply Hps. right. exact Hin.
Qed.

Lemma returns_AnyOf {T} (ps : list (Parser T)) :
  (forall p, In p ps -> returns_inside p s) -> returns_inside (AnyOf ps) s.
Proof.
  intros Hps. destruct (returns_all ps Hps) as (N & Hall).
  exists N. intros fuel st Hf Hq. unfold AnyOf.
  destruct (to_size_t (position st) <? size s); [|ends_failed].
  destruct (AnyOf_loop_returns ps N fuel (position st) Hall Hf Hq)
    as [E | (r & v & E & Sr & Hv & Hpos)]; rewrite E; cbn [bind].
  - ends_failed.
  - exists r. split; [reflexivity|]. intros _. split; [eauto | exact Hpos].
Qed.

Lemma Safe_returns_inside (Base : forall T : Type, Parser T -> Prop) :
  (forall T p, Base T p -> returns_inside p s) ->
  forall T (p : Parser T), Safe Base T p -> returns_inside p s.
Proof.
  intros HBase T p HS.
  induction HS;
    unfold letter, digit, whitespace, alphanumeric, whitespaces, letters,
      digits, alphanumerics;
    auto using returns_Char, returns_String, returns_any, returns_word,
      returns_AnyOfChars, returns_Map, returns_Discard, returns_SeqFirst,
      returns_SeqSecond, returns_SeqVoid, returns_SeqPair, returns_Or,
      returns_Try, returns_Many, returns_AtLeast, returns_Between,
      returns_AnyOf;
    try (apply returns_char_class; reflexivity);
    try (apply returns_many_class; reflexivity).
Qed.

End Returning.

(** C3, amended. On an input of at most [INT_MAX] characters, every parser
    that keeps its reads inside the input returns a [ParseResult] from
    every start position inside the input, given a large enough bound on
    loop iterations: the primitives [Char(c)] for [c] other than the null
    character, [String], [any], the class parsers, the scanning parsers,
    [word] and [AnyOf(characters)], caller-supplied parsers that return
    inside the input, and over them sequence, alternation, map with a pure
    function, discard, [Try], [AnyOf], and [Many], [AtLeast] and [Between]
    of an operand that advances the position on every success. *)
Theorem safe_parsers_return (Base : forall T : Type, Parser T -> Prop)
    (s : string) :
  size s <= INT_MAX ->
  (forall T p, Base T p -> returns_inside p s) ->
  forall T (p : Parser T),
    Safe Base T p ->
    exists N : nat,
      forall fuel start,
        (N <= fuel)%nat -> 0 <= start <= size s ->
        exists r, run p fuel s start = Ret r.
Proof.
  intros Hlen HBase T p HS.
  destruct (Safe_returns_inside s Hlen Base HBase T p HS) as (N & H).
  exists N. intros fuel start Hf Hp.
  destruct (H fuel (mkState true start) Hf Hp) as (r & E & _).
  exists r. exact E.
Qed.

Lemma safe_parsers_return_witness :
  exists N : nat,
    forall fuel start,
      (N <= fuel)%nat -> 0 <= start <= size "ab1" ->
      exists r,
        run (SeqPair (Many letter) (Try digit "0"%char)) fuel "ab1" start
        = Ret r.
Proof.
  exact (safe_parsers_return (fun _ _ => False) "ab1"
           ltac:(vm_compute; discriminate)
           (fun T p (F : False) => match F with end)
           (list ascii * ascii)%type
           (SeqPair (Many letter) (Try digit "0"%char))
           (S_SeqPair _ _ _ _ _
              (S_Many _ _ letter (S_letter _)
                 (advancing_char_class is_letter))
              (S_Try _ _ _ _ (S_digit _)))).
Defined.
